(** * stellarmesh: the DAGMC topology builder, embedded and verified

    A shallow embedding of [stellarmesh.py]: [Geometry], the [Mesh]
    context manager over the process-wide gmsh engine, and
    [MOABModel.make_from_mesh], the single pass that turns mesh adjacency
    into tagged MOAB entity sets with surface senses.

    The two external engines are modelled by what the code asks of them:
      - gmsh: a session holding the model that was opened (3D entity tags,
        their bounding surfaces, physical groups), see [gmsh];
      - pymoab: a store of entity handles with tags, parent/child links and
        set contents, see [moab].
    Python exceptions are the [Raise] outcome of a state-and-exception
    monad; the state survives a raise, as it does in Python. *)

From Stdlib Require Import ZArith NArith QArith.
From stdpp Require Import gmap strings list fin_maps.

Set Default Proof Using "Type".

(** ** Exceptions and the state-and-exception monad *)

(** The messages the code formats; the fields are the values it
    interpolates. *)
Inductive Message :=
  | MaterialNamesSolids      (* "Length of material_names must match length of solids." *)
  | MaterialNamesFile        (* "Length of material_names must match number of solids in file." *)
  | VolumeGroups (volume_tag : Z) (global_id : N) (num_groups : nat)
      (* "Volume with tag .. and global_id .. belongs to .. physical groups, should be 1" *)
  | NonSolidGeometry         (* "Importing non-solid geometry." *)
  | CannotOpen (filename : string)
  | NoneHasNoAddress         (* [None._address()] *)
  | IndexOutOfRange.         (* [[][0]] *)

Inductive Exn :=
  | ValueError (m : Message)
  | TypeError (m : Message)
  | AttributeError (m : Message)
  | IndexError (m : Message)
  | GmshError (m : Message).    (* the [Exception] gmsh's Python API raises *)

Inductive Outcome (A : Type) :=
  | Return (a : A)
  | Raise (e : Exn).
Arguments Return {A} a.
Arguments Raise {A} e.

Definition M (S A : Type) : Type := S → Outcome A * S.

Definition ret {S A} (a : A) : M S A := λ s, (Return a, s).
Definition raise {S A} (e : Exn) : M S A := λ s, (Raise e, s).
Definition bind {S A B} (c : M S A) (k : A → M S B) : M S B :=
  λ s, match c s with
       | (Return a, s1) => k a s1
       | (Raise e, s1) => (Raise e, s1)
       end.
Definition gets {S A} (f : S → A) : M S A := λ s, (Return (f s), s).
Definition modify {S} (f : S → S) : M S unit := λ s, (Return tt, f s).

Declare Scope py_scope.
Delimit Scope py_scope with py.
Notation "x <- c1 ;; c2" := (bind c1 (λ x, c2))
  (at level 100, c1 at next level, right associativity) : py_scope.
Notation "c1 ;; c2" := (bind c1 (λ _, c2))
  (at level 100, right associativity) : py_scope.
Open Scope py_scope.

(** [for x in l: body(x)]: the first raise ends the loop. *)
Fixpoint for_each {S A} (l : list A) (body : A → M S unit) : M S unit :=
  match l with
  | [] => ret tt
  | x :: l' => body x ;; for_each l' body
  end.

(** [enumerate(l)], counting from [k]. *)
Fixpoint enumerate_from {A} (k : nat) (l : list A) : list (nat * A) :=
  match l with
  | [] => []
  | x :: l' => (k, x) :: enumerate_from (S k) l'
  end.
Definition enumerate {A} (l : list A) : list (nat * A) := enumerate_from 0 l.

(** [with cm: body].  When [__enter__] raises, [__exit__] is not called;
    once entered, [__exit__] runs on every way out of the body.  The
    [__exit__] of [Mesh] returns [None], so an exception of the body is
    re-raised after it. *)
Definition with_ {S A B} (enter : M S A) (exit : M S unit) (body : A → M S B)
  : M S B :=
  λ s, match enter s with
       | (Raise e, s1) => (Raise e, s1)
       | (Return a, s1) =>
           let '(r, s2) := body a s1 in
           match exit s2 with
           | (Raise e, s3) => (Raise e, s3)
           | (Return _, s3) => (r, s3)
           end
       end.

(** [try: body finally: cleanup]. *)
Definition try_finally {S A} (body : M S A) (cleanup : M S unit) : M S A :=
  λ s, let '(r, s1) := body s in
       match cleanup s1 with
       | (Raise e, s2) => (Raise e, s2)
       | (Return _, s2) => (r, s2)
       end.

(** ** The gmsh engine *)

Module gmsh.

Record PhysicalGroup := {
  pg_dim : Z;
  pg_tag : Z;
  pg_entities : list Z;
  pg_name : string;
}.

(** What a model answers to the queries of the builder. *)
Record Model := {
  entities3 : list Z;             (* tags of the 3D entities, in gmsh's order *)
  boundary : Z → list Z;          (* surfaces bounding a 3D entity *)
  triangles : Z → nat;            (* number of facets meshed on a surface *)
  physical_groups : list PhysicalGroup;
}.

Definition empty_model : Model :=
  {| entities3 := []; boundary := λ _, []; triangles := λ _, 0;
     physical_groups := [] |}.

(** The engine is one per process. *)
Record Session := {
  initialized : bool;
  options : gmap string Q;
  model : Model;
  fltk : bool;
}.

Definition set_model (m : Model) (g : Session) : Session :=
  {| initialized := initialized g; options := options g; model := m;
     fltk := fltk g |}.
Definition on_model (f : Model → Model) (g : Session) : Session :=
  set_model (f (model g)) g.
Definition set_groups (pgs : list PhysicalGroup) (m : Model) : Model :=
  {| entities3 := entities3 m; boundary := boundary m;
     triangles := triangles m; physical_groups := pgs |}.

Definition is_initialized (g : Session) : bool := initialized g.

(** [gmsh.initialize()]: a fresh engine with default options and an empty
    model. *)
Definition initialize (g : Session) : Session :=
  {| initialized := true; options := ∅; model := empty_model; fltk := false |}.

Definition finalize (g : Session) : Session :=
  {| initialized := false; options := ∅; model := empty_model; fltk := false |}.

Definition option_set_number (name : string) (v : Q) (g : Session) : Session :=
  {| initialized := initialized g; options := <[name := v]> (options g);
     model := model g; fltk := fltk g |}.

Definition set_fltk (b : bool) (g : Session) : Session :=
  {| initialized := initialized g; options := options g; model := model g;
     fltk := b |}.

(** The functions of [gmsh.model], on the current model. *)

(** [gmsh.model.get_entities(dim)]: (dim, tag) pairs. *)
Definition get_entities (dim : Z) (m : Model) : list (Z * Z) :=
  if decide (dim = 3%Z) then (λ t, (3%Z, t)) <$> entities3 m else [].

Definition in_group (dim tag : Z) (pg : PhysicalGroup) : Prop :=
  pg_dim pg = dim ∧ tag ∈ pg_entities pg.
Global Instance in_group_dec dim tag pg : Decision (in_group dim tag pg).
Proof. unfold in_group. apply _. Defined.

(** [gmsh.model.get_physical_groups_for_entity(dim, tag)]. *)
Definition get_physical_groups_for_entity (dim tag : Z) (m : Model) : list Z :=
  pg_tag <$> filter (in_group dim tag) (physical_groups m).

Definition is_group (dim tag : Z) (pg : PhysicalGroup) : Prop :=
  pg_dim pg = dim ∧ pg_tag pg = tag.
Global Instance is_group_dec dim tag pg : Decision (is_group dim tag pg).
Proof. unfold is_group. apply _. Defined.

(** [gmsh.model.get_physical_name(dim, tag)]: empty when the group has no
    name or does not exist. *)
Definition get_physical_name (dim tag : Z) (m : Model) : string :=
  match filter (is_group dim tag) (physical_groups m) with
  | pg :: _ => pg_name pg
  | [] => ""
  end.

(** [gmsh.model.get_adjacencies(dim, tag)]: (upward, downward). *)
Definition get_adjacencies (dim tag : Z) (m : Model) : list Z * list Z :=
  if decide (dim = 3%Z) then ([], boundary m tag) else ([], []).

Definition max_tag (dim : Z) (pgs : list PhysicalGroup) : Z :=
  foldr (λ pg acc, if decide (pg_dim pg = dim) then Z.max (pg_tag pg) acc else acc)
        0%Z pgs.

(** [gmsh.model.add_physical_group(dim, tags, name=...)] with the tag left
    to gmsh: one more than the largest tag of that dimension. *)
Definition add_physical_group (dim : Z) (tags : list Z) (name : string)
    (m : Model) : Z * Model :=
  let pgs := physical_groups m in
  let t := (max_tag dim pgs + 1)%Z in
  (t, set_groups (pgs ++ [ {| pg_dim := dim; pg_tag := t; pg_entities := tags;
                              pg_name := name |} ]) m).

Definition listed (dim_tags : list (Z * Z)) (pg : PhysicalGroup) : Prop :=
  (pg_dim pg, pg_tag pg) ∈ dim_tags.
Global Instance listed_dec dts pg : Decision (listed dts pg).
Proof. unfold listed. apply _. Defined.

(** [gmsh.model.remove_physical_groups(dim_tags)]. *)
Definition remove_physical_groups (dim_tags : list (Z * Z)) (m : Model)
  : Model :=
  set_groups (filter (λ pg, ¬ listed dim_tags pg) (physical_groups m)) m.

(** An STL file, as far as the builder is concerned: which surfaces'
    facets it holds and how many of each. *)
Definition Stl : Type := list (Z * nat).

(** [gmsh.write(name.stl)] in a session opened by [Mesh.__enter__]
    ([Mesh.SaveAll] at its default 0): the facets of the surfaces that are
    in a physical group. *)
Definition write_stl (m : Model) : Stl :=
  (λ s, (s, triangles m s)) <$>
    mjoin (pg_entities <$> filter (λ pg, pg_dim pg = 2%Z) (physical_groups m)).

End gmsh.

(** ** The MOAB store (pymoab.core.Core) *)

Module moab.

Inductive EntityType := MBTRI | MBENTITYSET.
Global Instance EntityType_eq_dec : EqDecision EntityType.
Proof. solve_decision. Defined.

(** The six tags of [_get_moab_tag_handles], under their MOAB names. *)
Inductive Tag :=
  | GEOM_SENSE_2 | CATEGORY | NAME | GEOM_DIMENSION | FACETING_TOL | GLOBAL_ID.
Global Instance Tag_eq_dec : EqDecision Tag.
Proof. solve_decision. Defined.
Definition Tag_to_nat (t : Tag) : nat :=
  match t with
  | GEOM_SENSE_2 => 0 | CATEGORY => 1 | NAME => 2
  | GEOM_DIMENSION => 3 | FACETING_TOL => 4 | GLOBAL_ID => 5
  end.
Definition Tag_of_nat (n : nat) : option Tag :=
  match n with
  | 0 => Some GEOM_SENSE_2 | 1 => Some CATEGORY | 2 => Some NAME
  | 3 => Some GEOM_DIMENSION | 4 => Some FACETING_TOL | 5 => Some GLOBAL_ID
  | _ => None
  end.
Global Instance Tag_countable : Countable Tag.
Proof. apply (inj_countable Tag_to_nat Tag_of_nat). by intros []. Defined.

Inductive TagValue :=
  | TInt (z : Z)
  | TOpaque (s : string)
  | THandles (hs : list N)
  | TDouble (q : Q).

(** The calls that change the store, as they are made. *)
Inductive Op :=
  | OpCreateMeshset (h : N)
  | OpTagSet (t : Tag) (h : N) (v : TagValue)
  | OpAddEntity (meshset h : N)
  | OpAddEntities (meshset : N) (hs : list N)
  | OpAddParentChild (parent child : N)
  | OpLoadFile (stl : gmsh.Stl) (meshset : N).

(** Handles are allocated upwards from 1; handle 0 is the root set, which
    the builder also uses for "no volume". *)
Record Core := {
  next_handle : N;
  entities : list (EntityType * N);       (* everything in the root set *)
  tag_data : gmap (Tag * N) TagValue;
  children : gmap N (list N);
  parents : gmap N (list N);
  contents : gmap N (gset N);
  journal : list Op;                       (* oldest first *)
}.

Definition new : Core :=
  {| next_handle := 1; entities := []; tag_data := ∅; children := ∅;
     parents := ∅; contents := ∅; journal := [] |}.

(** The store after [core.create_meshset()], which returns the handle
    that was next. *)
Definition allocate (c : Core) : Core :=
  let h := next_handle c in
  {| next_handle := N.succ h;
     entities := entities c ++ [(MBENTITYSET, h)];
     tag_data := tag_data c; children := children c; parents := parents c;
     contents := contents c;
     journal := journal c ++ [OpCreateMeshset h] |}.
Definition create_meshset (c : Core) : N * Core := (next_handle c, allocate c).

Definition tag_set_data (t : Tag) (h : N) (v : TagValue) (c : Core) : Core :=
  {| next_handle := next_handle c; entities := entities c;
     tag_data := <[(t, h) := v]> (tag_data c);
     children := children c; parents := parents c; contents := contents c;
     journal := journal c ++ [OpTagSet t h v] |}.

Definition tag_get_data (t : Tag) (h : N) (c : Core) : option TagValue :=
  tag_data c !! (t, h).

Definition members (meshset : N) (c : Core) : gset N :=
  default ∅ (contents c !! meshset).

Definition add_entity (meshset h : N) (c : Core) : Core :=
  {| next_handle := next_handle c; entities := entities c;
     tag_data := tag_data c; children := children c; parents := parents c;
     contents := <[meshset := members meshset c ∪ {[h]}]> (contents c);
     journal := journal c ++ [OpAddEntity meshset h] |}.

Definition add_entities (meshset : N) (hs : list N) (c : Core) : Core :=
  {| next_handle := next_handle c; entities := entities c;
     tag_data := tag_data c; children := children c; parents := parents c;
     contents := <[meshset := members meshset c ∪ list_to_set hs]> (contents c);
     journal := journal c ++ [OpAddEntities meshset hs] |}.

Definition get_child_meshsets (h : N) (c : Core) : list N :=
  default [] (children c !! h).
Definition get_parent_meshsets (h : N) (c : Core) : list N :=
  default [] (parents c !! h).

(** Parent and child lists keep the order of insertion and hold a handle
    once. *)
Definition add_once (h : N) (l : list N) : list N :=
  if decide (h ∈ l) then l else l ++ [h].

Definition add_parent_child (parent child : N) (c : Core) : Core :=
  {| next_handle := next_handle c; entities := entities c;
     tag_data := tag_data c;
     children := <[parent := add_once child (get_child_meshsets parent c)]> (children c);
     parents := <[child := add_once parent (get_parent_meshsets child c)]> (parents c);
     contents := contents c;
     journal := journal c ++ [OpAddParentChild parent child] |}.

Definition stl_facets (stl : gmsh.Stl) : nat := sum_list (snd <$> stl).

(** [core.load_file(stl, meshset)]: one triangle entity per facet of the
    file, all put into [meshset]. *)
Definition load_file (stl : gmsh.Stl) (meshset : N) (c : Core) : Core :=
  let tris := (λ k, (next_handle c + N.of_nat k)%N) <$> seq 0 (stl_facets stl) in
  {| next_handle := (next_handle c + N.of_nat (stl_facets stl))%N;
     entities := entities c ++ ((λ h, (MBTRI, h)) <$> tris);
     tag_data := tag_data c; children := children c; parents := parents c;
     contents := <[meshset := members meshset c ∪ list_to_set tris]> (contents c);
     journal := journal c ++ [OpLoadFile stl meshset] |}.

(** [core.get_entities_by_handle(meshset)]; the builder asks for the root
    set only. *)
Definition get_entities_by_handle (meshset : N) (c : Core) : list N :=
  if decide (meshset = 0%N) then snd <$> entities c
  else elements (members meshset c).

Definition typed_and_tagged (c : Core) (ty : EntityType) (t : Tag)
    (v : Z) (e : EntityType * N) : Prop :=
  fst e = ty ∧ tag_get_data t (snd e) c = Some (TInt v).
Global Instance tagged_int_dec (o : option TagValue) (v : Z) :
  Decision (o = Some (TInt v)).
Proof.
  destruct o as [[z| | |]|]; try (right; congruence).
  destruct (decide (z = v)); [left|right]; congruence.
Defined.
Global Instance typed_and_tagged_dec c ty t v e :
  Decision (typed_and_tagged c ty t v e).
Proof. unfold typed_and_tagged. apply _. Defined.

(** [core.get_entities_by_type_and_tag(0, type, tag, [value])]. *)
Definition get_entities_by_type_and_tag (ty : EntityType) (t : Tag) (v : Z)
    (c : Core) : list N :=
  snd <$> filter (typed_and_tagged c ty t v) (entities c).

End moab.

(** ** Geometry *)

(** A build123d solid, known to this code only through the OCC shape it
    wraps ([wrapped], possibly [None]) and that shape's address. *)
Record Solid := { wrapped : option N }.

(** A build123d shape read from a file; [solids_of] is [shape.solids()]. *)
Record Shape := { solids_of : list Solid }.

Record Geometry := {
  solids : list Solid;
  material_names : list string;
}.

(** [Geometry.__init__]. *)
Definition Geometry_init (solids : list Solid) (material_names : list string)
  : Outcome Geometry :=
  if decide (length material_names ≠ length solids)
  then Raise (ValueError MaterialNamesSolids)
  else Return {| solids := solids; material_names := material_names |}.

Section GeometryImport.
(** [bd.import_step] and [bd.import_brep] belong to build123d; they read a
    file and may raise. *)
Variable bd_import_step : string → Outcome Shape.
Variable bd_import_brep : string → Outcome Shape.

Definition import_step (filename : string) (material_names : list string)
  : Outcome Geometry :=
  match bd_import_step filename with
  | Raise e => Raise e
  | Return geometry =>
      let solids := solids_of geometry in
      if decide (length material_names ≠ length solids)
      then Raise (ValueError MaterialNamesFile)
      else Geometry_init solids material_names
  end.

Definition import_brep (filename : string) (material_names : list string)
  : Outcome Geometry :=
  match bd_import_brep filename with
  | Raise e => Raise e
  | Return geometry =>
      let solids := solids_of geometry in
      if decide (length material_names ≠ length solids)
      then Raise (ValueError MaterialNamesFile)
      else Geometry_init solids material_names
  end.
End GeometryImport.

(** ** Mesh: the context manager over the gmsh engine *)

(** What lives outside one call: the engine, the .msh files on disk, the
    images rendered, and the logger's level. *)
Record World := {
  session : gmsh.Session;
  msh_files : gmap string gmsh.Model;
  images : list string;
  logger_level : Z;
}.

Definition on_session (f : gmsh.Session → gmsh.Session) (w : World) : World :=
  {| session := f (session w); msh_files := msh_files w; images := images w;
     logger_level := logger_level w |}.

Record Mesh := { _mesh_filename : string }.

Definition logging_INFO : Z := 20.

(** [gmsh.open(filename)]: the model of the file replaces the current one;
    a file gmsh cannot read raises. *)
Definition gmsh_open (filename : string) : M World unit :=
  λ w, match msh_files w !! filename with
       | Some m => (Return tt, on_session (gmsh.set_model m) w)
       | None => (Raise (GmshError (CannotOpen filename)), w)
       end.

(** [gmsh.write(filename)] for a .msh file. *)
Definition gmsh_write_msh (filename : string) : M World unit :=
  modify (λ w, {| session := session w;
                  msh_files := <[filename := gmsh.model (session w)]> (msh_files w);
                  images := images w; logger_level := logger_level w |}).

(** A new, empty .msh file, as [tempfile.NamedTemporaryFile] leaves it. *)
Definition new_temporary_file (filename : string) : M World unit :=
  modify (λ w, {| session := session w;
                  msh_files := <[filename := gmsh.empty_model]> (msh_files w);
                  images := images w; logger_level := logger_level w |}).

(** [gmsh.write(filename)] for an image. *)
Definition gmsh_write_image (filename : string) : M World unit :=
  modify (λ w, {| session := session w; msh_files := msh_files w;
                  images := images w ++ [filename];
                  logger_level := logger_level w |}).

(** [Mesh.__enter__]. *)
Definition Mesh_enter (self : Mesh) : M World Mesh :=
  is_init <- gets (λ w, gmsh.is_initialized (session w)) ;;
  (if negb is_init then modify (on_session gmsh.initialize) else ret tt) ;;
  level <- gets logger_level ;;
  modify (on_session (gmsh.option_set_number "General.Terminal"
            (if decide (level ≤ logging_INFO)%Z then 1 else 0)%Q)) ;;
  gmsh_open (_mesh_filename self) ;;
  ret self.

(** [Mesh.__exit__]. *)
Definition Mesh_exit (self : Mesh) : M World unit :=
  modify (on_session gmsh.finalize).

(** [Mesh.write]. *)
Definition Mesh_write (self : Mesh) (filename : string) (save_all : bool)
  : M World unit :=
  with_ (Mesh_enter self) (Mesh_exit self) (λ _,
    modify (on_session (gmsh.option_set_number "Mesh.SaveAll"
              (if save_all then 1 else 0)%Q)) ;;
    gmsh_write_msh filename).

(** [Mesh.render], with the name of a fresh temporary file passed in as
    [temp_name] (it is used when [output_filename] is [None] or empty). *)
Definition Mesh_render (self : Mesh) (output_filename : option string)
    (rotation_xyz : Q * Q * Q) (normals : Z) (clipping : bool)
    (temp_name : string) : M World string :=
  with_ (Mesh_enter self) (Mesh_exit self) (λ _,
    let set name v := modify (on_session (gmsh.option_set_number name v)) in
    set "Mesh.SurfaceFaces" 1%Q ;;
    set "Mesh.Clip" (if clipping then 1 else 0)%Q ;;
    set "Mesh.Normals" (inject_Z normals) ;;
    set "General.Trackball" 0%Q ;;
    set "General.RotationX" (rotation_xyz.1.1) ;;
    set "General.RotationY" (rotation_xyz.1.2) ;;
    set "General.RotationZ" (rotation_xyz.2) ;;
    let output_filename :=
      match output_filename with
      | Some f => if decide (f = "") then temp_name else f
      | None => temp_name
      end in
    try_finally
      (modify (on_session (gmsh.set_fltk true)) ;;
       gmsh_write_image output_filename)
      (modify (on_session (gmsh.set_fltk false))) ;;
    ret output_filename).

(** [Mesh.__init__]: without a file name the mesh lives in a fresh, empty
    temporary file, whose name is passed in as [temp_name]. *)
Definition Mesh_init (mesh_filename : option string) (temp_name : string)
  : M World Mesh :=
  match mesh_filename with
  | Some f =>
      if decide (f = "")
      then new_temporary_file temp_name ;; ret {| _mesh_filename := temp_name |}
      else ret {| _mesh_filename := f |}
  | None => new_temporary_file temp_name ;; ret {| _mesh_filename := temp_name |}
  end.

(** [Mesh._save_changes]. *)
Definition Mesh_save_changes (self : Mesh) (save_all : bool) : M World unit :=
  modify (on_session (gmsh.option_set_number "Mesh.SaveAll"
            (if save_all then 1 else 0)%Q)) ;;
  gmsh_write_msh (_mesh_filename self).

(** [material_solid_map], a dict in insertion order: the solid tags of each
    material. *)
Definition record_solid (m : string) (solid_tag : Z)
    (material_solid_map : list (string * list Z)) : list (string * list Z) :=
  if decide (m ∈ material_solid_map.*1)
  then (λ kv, if decide (kv.1 = m) then (kv.1, kv.2 ++ [solid_tag]) else kv)
         <$> material_solid_map
  else material_solid_map ++ [(m, [solid_tag])].

(** The second loop of [mesh_geometry]: one physical group per material. *)
Definition name_materials (material_solid_map : list (string * list Z))
  : M World unit :=
  for_each material_solid_map (λ kv,
    modify (on_session (gmsh.on_model (λ m,
      (gmsh.add_physical_group 3 kv.2 ("mat:" +:+ kv.1) m).2)))).

Section MeshGeometry.
(** The OCC kernel and the mesher belong to gmsh: what they make of a shape
    is left open. *)
Variable occ_import_shapes_native_pointer :
  N → gmsh.Session → list (Z * Z) * gmsh.Session.
Variable occ_synchronize : gmsh.Session → gmsh.Session.
Variable mesh_generate : Z → gmsh.Session → gmsh.Session.

(** The first loop of [mesh_geometry]: import each solid and note its tag
    under its material. *)
Fixpoint import_solids (pairs : list (Solid * string))
    (material_solid_map : list (string * list Z))
  : M World (list (string * list Z)) :=
  match pairs with
  | [] => ret material_solid_map
  | (s, m) :: pairs' =>
      match wrapped s with
      | None => raise (AttributeError NoneHasNoAddress)
      | Some address =>
          dim_tags <- (λ w, let '(dts, g) :=
                              occ_import_shapes_native_pointer address (session w) in
                            (Return dts, on_session (λ _, g) w)) ;;
          match dim_tags with
          | [] => raise (IndexError IndexOutOfRange)
          | (dim, solid_tag) :: _ =>
              if decide (dim ≠ 3%Z) then raise (TypeError NonSolidGeometry)
              else import_solids pairs' (record_solid m solid_tag material_solid_map)
          end
      end
  end.

(** [Mesh.mesh_geometry]. *)
Definition mesh_geometry (geometry : Geometry) (min_mesh_size max_mesh_size : Q)
    (temp_name : string) : M World Mesh :=
  mesh <- Mesh_init None temp_name ;;
  with_ (Mesh_enter mesh) (Mesh_exit mesh) (λ mesh,
    (* gmsh.model.add("stellarmesh_model") *)
    modify (on_session (gmsh.set_model gmsh.empty_model)) ;;
    material_solid_map <-
      import_solids (zip (solids geometry) (material_names geometry)) [] ;;
    modify (on_session occ_synchronize) ;;
    name_materials material_solid_map ;;
    modify (on_session (gmsh.option_set_number "Mesh.MeshSizeMin" min_mesh_size)) ;;
    modify (on_session (gmsh.option_set_number "Mesh.MeshSizeMax" max_mesh_size)) ;;
    modify (on_session (mesh_generate 2)) ;;
    Mesh_save_changes mesh true ;;
    ret mesh).
End MeshGeometry.

(** ** The MOAB model and its builder *)

(** [_Surface]: the builder's record of one surface.  Handle 0 stands for
    "no volume". *)
Record _Surface := {
  handle : N;
  forward_volume : N;
  reverse_volume : N;
}.

Definition _Surface_init (handle : N) : _Surface :=
  {| handle := handle; forward_volume := 0; reverse_volume := 0 |}.
Definition set_forward_volume (v : N) (s : _Surface) : _Surface :=
  {| handle := handle s; forward_volume := v; reverse_volume := reverse_volume s |}.
Definition set_reverse_volume (v : N) (s : _Surface) : _Surface :=
  {| handle := handle s; forward_volume := forward_volume s; reverse_volume := v |}.

Definition sense_data (s : _Surface) : list N :=
  [forward_volume s; reverse_volume s].

(** [MOABModel] wraps the store. *)
Record MOABModel := { _core : moab.Core }.

(** [MOABSurface.adjacent_volumes] and [MOABVolume.adjacent_surfaces], on
    handles. *)
Definition adjacent_volumes (model : MOABModel) (surface : N) : list N :=
  moab.get_parent_meshsets surface (_core model).
Definition adjacent_surfaces (model : MOABModel) (volume : N) : list N :=
  moab.get_child_meshsets volume (_core model).

Definition _get_entities_of_geom_dimension (model : MOABModel) (dim : Z) : list N :=
  moab.get_entities_by_type_and_tag moab.MBENTITYSET moab.GEOM_DIMENSION dim
    (_core model).
Definition surfaces (model : MOABModel) : list N :=
  _get_entities_of_geom_dimension model 2.
Definition volumes (model : MOABModel) : list N :=
  _get_entities_of_geom_dimension model 3.

(** The tag handles, by the keys of the [tag_handles] dict.  The calls of
    [core.tag_get_handle] that make them declare the tags in the store;
    here a handle is the tag's MOAB name. *)
Record TagHandles := {
  th_surf_sense : moab.Tag;
  th_category : moab.Tag;
  th_name : moab.Tag;
  th_geom_dimension : moab.Tag;
  th_faceting_tol : moab.Tag;
  th_global_id : moab.Tag;
}.

Definition _get_moab_tag_handles : TagHandles :=
  {| th_surf_sense := moab.GEOM_SENSE_2;
     th_category := moab.CATEGORY;
     th_name := moab.NAME;
     th_geom_dimension := moab.GEOM_DIMENSION;
     th_faceting_tol := moab.FACETING_TOL;
     th_global_id := moab.GLOBAL_ID |}.

(** The tolerance written on the file set: the literal [1e-3]. *)
Definition faceting_tol_value : Q := 1 # 1000.

(** The state of one run of [make_from_mesh]: the world, and the locals
    [core], [known_surfaces] and [known_groups]. *)
Record Build := {
  world : World;
  core : moab.Core;
  known_surfaces : gmap Z _Surface;
  known_groups : gmap Z N;
}.

Definition on_world (f : World → World) (b : Build) : Build :=
  {| world := f (world b); core := core b;
     known_surfaces := known_surfaces b; known_groups := known_groups b |}.
Definition on_core (f : moab.Core → moab.Core) (b : Build) : Build :=
  {| world := world b; core := f (core b);
     known_surfaces := known_surfaces b; known_groups := known_groups b |}.
Definition on_gmsh (f : gmsh.Session → gmsh.Session) (b : Build) : Build :=
  on_world (on_session f) b.

(** A computation on the world, run inside a build. *)
Definition in_world {A} (c : M World A) : M Build A :=
  λ b, let '(r, w) := c (world b) in (r, on_world (λ _, w) b).

Definition on_model (f : gmsh.Model → gmsh.Model) (b : Build) : Build :=
  on_gmsh (gmsh.on_model f) b.

(** A query of [gmsh.model]. *)
Definition ask_model {A} (f : gmsh.Model → A) : M Build A :=
  gets (λ b, f (gmsh.model (session (world b)))).

Definition create_meshset : M Build N :=
  λ b, let '(h, c) := moab.create_meshset (core b) in
       (Return h, on_core (λ _, c) b).
Definition tag_set_data (t : moab.Tag) (h : N) (v : moab.TagValue) : M Build unit :=
  modify (on_core (moab.tag_set_data t h v)).
Definition add_physical_group (dim : Z) (tags : list Z) (name : string)
  : M Build Z :=
  λ b, let '(t, m) :=
         gmsh.add_physical_group dim tags name (gmsh.model (session (world b))) in
       (Return t, on_model (λ _, m) b).

(** The body of [for surface_tag in surface_tags]. *)
Definition visit_surface (tag_handles : TagHandles) (volume_set_handle : N)
    (surface_tag : Z) : M Build unit :=
  known <- gets known_surfaces ;;
  surface <-
    match known !! surface_tag with
    | None =>
        surface_set_handle <- create_meshset ;;
        let surface := _Surface_init surface_set_handle in
        let surface := set_forward_volume volume_set_handle surface in
        modify (λ b, {| world := world b; core := core b;
                        known_surfaces := <[surface_tag := surface]> (known_surfaces b);
                        known_groups := known_groups b |}) ;;
        tag_set_data (th_global_id tag_handles) (handle surface)
          (moab.TInt surface_tag) ;;
        tag_set_data (th_geom_dimension tag_handles) (handle surface)
          (moab.TInt 2) ;;
        tag_set_data (th_category tag_handles) (handle surface)
          (moab.TOpaque "Surface") ;;
        tag_set_data (th_surf_sense tag_handles) (handle surface)
          (moab.THandles (sense_data surface)) ;;
        (* Write surface to MOAB through a temporary STL file. *)
        group_tag <- add_physical_group 2 [surface_tag] "" ;;
        stl_file <- ask_model gmsh.write_stl ;;
        modify (on_model (gmsh.remove_physical_groups [(2%Z, group_tag)])) ;;
        modify (on_core (moab.load_file stl_file surface_set_handle)) ;;
        ret surface
    | Some surface =>
        (* Surface already has a forward volume, so this must be the
           reverse volume.  [surface] is the object the dict holds: the
           assignment shows in [known_surfaces]. *)
        let surface := set_reverse_volume volume_set_handle surface in
        modify (λ b, {| world := world b; core := core b;
                        known_surfaces := <[surface_tag := surface]> (known_surfaces b);
                        known_groups := known_groups b |}) ;;
        tag_set_data (th_surf_sense tag_handles) (handle surface)
          (moab.THandles (sense_data surface)) ;;
        ret surface
    end ;;
  modify (on_core (moab.add_parent_child volume_set_handle (handle surface))).

(** The body of [for i, volume_tag in enumerate(volume_tags)].  The test
    [len(vol_groups) != 1] is the second branch of the match: every list
    but a one-element one. *)
Definition visit_volume (tag_handles : TagHandles) (iv : nat * Z)
  : M Build unit :=
  let '(i, volume_tag) := iv in
  (* Add volume set *)
  volume_set_handle <- create_meshset ;;
  let global_id := volume_set_handle in
  tag_set_data (th_global_id tag_handles) global_id (moab.TInt (Z.of_nat i)) ;;
  tag_set_data (th_geom_dimension tag_handles) volume_set_handle (moab.TInt 3) ;;
  tag_set_data (th_category tag_handles) volume_set_handle (moab.TOpaque "Volume") ;;
  (* Add volume to its physical group *)
  vol_groups <- ask_model (gmsh.get_physical_groups_for_entity 3 volume_tag) ;;
  match vol_groups with
  | [vol_group] =>
      known <- gets known_groups ;;
      group_set <-
        match known !! vol_group with
        | None =>
            mat_name <- ask_model (gmsh.get_physical_name 3 vol_group) ;;
            group_set <- create_meshset ;;
            tag_set_data (th_category tag_handles) group_set (moab.TOpaque "Group") ;;
            tag_set_data (th_name tag_handles) group_set (moab.TOpaque mat_name) ;;
            tag_set_data (th_global_id tag_handles) group_set (moab.TInt vol_group) ;;
            modify (λ b, {| world := world b; core := core b;
                            known_surfaces := known_surfaces b;
                            known_groups := <[vol_group := group_set]> (known_groups b) |}) ;;
            ret group_set
        | Some group_set => ret group_set
        end ;;
      modify (on_core (moab.add_entity group_set volume_set_handle)) ;;
      (* Add surfaces to MOAB core, respecting surface sense. *)
      adjacencies <- ask_model (gmsh.get_adjacencies 3 volume_tag) ;;
      let surface_tags := adjacencies.2 in
      for_each surface_tags (visit_surface tag_handles volume_set_handle)
  | _ =>
      raise (ValueError (VolumeGroups volume_tag global_id (length vol_groups)))
  end.

(** What runs under [with mesh:]. *)
Definition build_body (tag_handles : TagHandles) : M Build MOABModel :=
  volume_dimtags <- ask_model (gmsh.get_entities 3) ;;
  let volume_tags := snd <$> volume_dimtags in
  for_each (enumerate volume_tags) (visit_volume tag_handles) ;;
  all_entities <- gets (λ b, moab.get_entities_by_handle 0 (core b)) ;;
  file_set <- create_meshset ;;
  tag_set_data (th_faceting_tol tag_handles) file_set
    (moab.TDouble faceting_tol_value) ;;
  modify (on_core (moab.add_entities file_set all_entities)) ;;
  c <- gets core ;;
  ret {| _core := c |}.

(** [MOABModel.make_from_mesh]. *)
Definition make_from_mesh (mesh : Mesh) : M World MOABModel :=
  λ w,
    let tag_handles := _get_moab_tag_handles in
    let b := {| world := w; core := moab.new; known_surfaces := ∅;
                known_groups := ∅ |} in
    let '(r, b') :=
      with_ (in_world (Mesh_enter mesh)) (in_world (Mesh_exit mesh))
        (λ _, build_body tag_handles) b in
    (r, world b').

(** ** The vocabulary of the properties *)

Section Reading.
Context (m : gmsh.Model).

(** The 3D entity tags, as [make_from_mesh] lists them. *)
Definition volume_tags : list Z := snd <$> gmsh.get_entities 3 m.
Definition groups_of (volume_tag : Z) : list Z :=
  gmsh.get_physical_groups_for_entity 3 volume_tag m.
Definition surfaces_of (volume_tag : Z) : list Z :=
  (gmsh.get_adjacencies 3 volume_tag m).2.

(** Every volume is in exactly one physical group. *)
Definition well_grouped : Prop :=
  Forall (λ v, length (groups_of v) = 1) volume_tags.

(** No volume lists a bounding surface twice. *)
Definition simple_boundaries : Prop :=
  Forall (λ v, NoDup (surfaces_of v)) volume_tags.


(** The sweep: every (position of the volume, surface tag) the two loops
    go through, in order. *)
Definition sweep_from (k : nat) (tags : list Z) : list (nat * Z) :=
  enumerate_from k tags ≫= λ iv, (λ s, (iv.1, s)) <$> surfaces_of iv.2.
Definition sweep : list (nat * Z) := sweep_from 0 volume_tags.


(** What the export for surface [s] writes: the facets of the surfaces
    already in a 2D physical group of the mesh, then those of [s]. *)
Definition exported (s : Z) : gmsh.Stl :=
  gmsh.write_stl (gmsh.add_physical_group 2 [s] "" m).2.
End Reading.

(** The order of first occurrence. *)
Definition first_seen (l : list Z) : list Z :=
  foldl (λ acc x, if decide (x ∈ acc) then acc else acc ++ [x]) [] l.

(** The surface tags for which the store was asked to load a file, and the
    sets the files were loaded into, in the order of the calls. *)
Definition loads (ops : list moab.Op) : list (gmsh.Stl * N) :=
  ops ≫= λ op, match op with moab.OpLoadFile stl h => [(stl, h)] | _ => [] end.

(** The values written to a tag, in the order of the calls. *)
Definition writes (t : moab.Tag) (ops : list moab.Op) : list (N * moab.TagValue) :=
  ops ≫= λ op, match op with
               | moab.OpTagSet t' h v => if decide (t' = t) then [(h, v)] else []
               | _ => []
               end.

(** The volumes that met a surface, by handle, and the sense pair the
    builder leaves after these meetings: the first volume, and the last one
    if there was more than one meeting. *)
Definition visitors (E : list (N * Z)) (s : Z) : list N :=
  (filter (λ e, e.2 = s) E).*1.
Definition sense_after (l : list N) : list N :=
  [default 0%N (head l);
   match l with _ :: _ :: _ => default 0%N (last l) | _ => 0%N end].


(** ** The vocabulary of the proofs *)

(** The handle recorded for a surface tag; 0 for a tag that is not known. *)
Definition surface_handle (known : gmap Z _Surface) (s : Z) : N :=
  default 0%N (handle <$> known !! s).

(** The entity sets tagged with a geometric dimension, as [surfaces] and
    [volumes] list them. *)
Abbreviation sets_of_dimension c d :=
  (moab.get_entities_by_type_and_tag moab.MBENTITYSET moab.GEOM_DIMENSION d c).

(** A write of a handle tag that fills two slots. *)
Definition is_pair (hv : N * moab.TagValue) : Prop :=
  ∃ f r, hv.2 = moab.THandles [f; r].

(** A write of the given text. *)
Definition says (text : string) (hv : N * moab.TagValue) : Prop :=
  hv.2 = moab.TOpaque text.
Global Instance says_dec text hv : Decision (says text hv).
Proof.
  unfold says. destruct hv as [h [z|s|hs|q]]; simpl; try (right; congruence).
  destruct (decide (s = text)); [left|right]; congruence.
Defined.

(** The handles that were given a category, in the order of the calls. *)
Definition categorized (text : string) (ops : list moab.Op) : list N :=
  (filter (says text) (writes moab.CATEGORY ops)).*1.

Abbreviation tags0 := _get_moab_tag_handles.

(** Runs the monadic steps of a definition that was unfolded. *)
Ltac run_py :=
  unfold bind, gets, modify, ret, raise, create_meshset,
    tag_set_data, add_physical_group, ask_model,
    on_model, on_gmsh, on_core, on_world, on_session, gmsh.on_model; simpl.

(** The store after each stretch of calls of the two loop bodies: a surface
    met for the first time by volume [v], a surface met again, a new
    volume, a new group. *)
Definition new_surface_core (v : N) (s : Z) (stl : gmsh.Stl) (c : moab.Core) : moab.Core :=
  let h := moab.next_handle c in
  moab.add_parent_child v h
    (moab.load_file stl h
      (moab.tag_set_data moab.GEOM_SENSE_2 h (moab.THandles [v; 0%N])
        (moab.tag_set_data moab.CATEGORY h (moab.TOpaque "Surface")
          (moab.tag_set_data moab.GEOM_DIMENSION h (moab.TInt 2)
            (moab.tag_set_data moab.GLOBAL_ID h (moab.TInt s)
              (moab.allocate c)))))).

Definition seen_surface_core (v : N) (surface : _Surface) (c : moab.Core) : moab.Core :=
  moab.add_parent_child v (handle surface)
    (moab.tag_set_data moab.GEOM_SENSE_2 (handle surface)
       (moab.THandles [forward_volume surface; v]) c).

Definition new_volume_core (i : nat) (c : moab.Core) : moab.Core :=
  let v := moab.next_handle c in
  moab.tag_set_data moab.CATEGORY v (moab.TOpaque "Volume")
    (moab.tag_set_data moab.GEOM_DIMENSION v (moab.TInt 3)
      (moab.tag_set_data moab.GLOBAL_ID v (moab.TInt (Z.of_nat i))
        (moab.allocate c))).

Definition new_group_core (g : Z) (name : string) (c : moab.Core) : moab.Core :=
  let group_set := moab.next_handle c in
  moab.tag_set_data moab.GLOBAL_ID group_set (moab.TInt g)
    (moab.tag_set_data moab.NAME group_set (moab.TOpaque name)
      (moab.tag_set_data moab.CATEGORY group_set (moab.TOpaque "Group")
        (moab.allocate c))).

(** The store and [known_groups] once volume [v] has been put into the set
    of its physical group [g]. *)
Definition grouped (g : Z) (name : string) (v : N) (c : moab.Core)
    (known : gmap Z N) : moab.Core * gmap Z N :=
  match known !! g with
  | None =>
      (moab.add_entity (moab.next_handle c) v (new_group_core g name c),
       <[g := moab.next_handle c]> known)
  | Some group_set => (moab.add_entity group_set v c, known)
  end.

(** The calls that make the set of a physical group, for a group not seen
    before. *)
Definition group_ops (known : option N) (group_set : N) (g : Z) (name : string)
  : list moab.Op :=
  match known with
  | Some _ => []
  | None =>
      [moab.OpCreateMeshset group_set;
       moab.OpTagSet moab.CATEGORY group_set (moab.TOpaque "Group");
       moab.OpTagSet moab.NAME group_set (moab.TOpaque name);
       moab.OpTagSet moab.GLOBAL_ID group_set (moab.TInt g)]
  end.

(** The sweep with the volumes named by handle. *)
Definition handle_sweep (m : gmsh.Model) (vs : list (N * Z)) : list (N * Z) :=
  vs ≫= λ vt, (λ s, (vt.1, s)) <$> surfaces_of m vt.2.

(** The world once [Mesh.__enter__] has opened a file holding [m]. *)
Definition entered (w : World) (m : gmsh.Model) : World :=
  on_session (gmsh.set_model m)
    (on_session (gmsh.option_set_number "General.Terminal"
                   (if decide (logger_level w ≤ logging_INFO)%Z then 1 else 0)%Q)
       (if gmsh.is_initialized (session w) then w
        else on_session gmsh.initialize w)).

(** The world when [gmsh.open] raised. *)
Definition stuck (w : World) : World :=
  on_session (gmsh.option_set_number "General.Terminal"
                (if decide (logger_level w ≤ logging_INFO)%Z then 1 else 0)%Q)
    (if gmsh.is_initialized (session w) then w
     else on_session gmsh.initialize w).

(** The store once the file set has been added. *)
Definition sealed (c : moab.Core) : moab.Core :=
  let file_set := moab.next_handle c in
  moab.add_entities file_set (moab.get_entities_by_handle 0 c)
    (moab.tag_set_data moab.FACETING_TOL file_set (moab.TDouble faceting_tol_value)
       (moab.allocate c)).

(** The invariant of the sweep over a mesh [m].  [V] lists the handles of
    the volumes created so far, in order; [E] lists the meetings so far,
    each a volume handle and the surface tag it met. *)
Record Swept (m : gmsh.Model) (V : list N) (E : list (N * Z)) (b : Build)
  : Prop := {
  swept_model : gmsh.model (session (world b)) = m;
  swept_next : (0 < moab.next_handle (core b))%N;
  swept_entities : ∀ e, e ∈ moab.entities (core b) →
    (0 < e.2 < moab.next_handle (core b))%N;
  swept_tagged : ∀ t h v, moab.tag_get_data t h (core b) = Some v →
    (h < moab.next_handle (core b))%N;
  swept_contents : ∀ h, (moab.next_handle (core b) ≤ h)%N →
    moab.contents (core b) !! h = None;
  swept_no_tol : ∀ h, moab.tag_get_data moab.FACETING_TOL h (core b) = None;
  swept_linked : ∀ p c,
    c ∈ moab.get_child_meshsets p (core b) ↔ p ∈ moab.get_parent_meshsets c (core b);
  swept_volumes : sets_of_dimension (core b) 3 = V;
  swept_global_id : ∀ i h, V !! i = Some h →
    moab.tag_get_data moab.GLOBAL_ID h (core b) = Some (moab.TInt (Z.of_nat i));
  swept_surfaces :
    sets_of_dimension (core b) 2
    = surface_handle (known_surfaces b) <$> first_seen E.*2;
  swept_unknown : ∀ s, known_surfaces b !! s = None → s ∉ E.*2;
  swept_known : ∀ s surface, known_surfaces b !! s = Some surface →
    s ∈ E.*2 ∧
    (handle surface < moab.next_handle (core b))%N ∧
    sense_data surface = sense_after (visitors E s) ∧
    moab.tag_get_data moab.GEOM_SENSE_2 (handle surface) (core b)
      = Some (moab.THandles (sense_data surface)) ∧
    moab.tag_get_data moab.GLOBAL_ID (handle surface) (core b)
      = Some (moab.TInt s);
  swept_distinct : ∀ s1 s2 a1 a2,
    known_surfaces b !! s1 = Some a1 → known_surfaces b !! s2 = Some a2 →
    handle a1 = handle a2 → s1 = s2;
  swept_loads :
    loads (moab.journal (core b))
    = (λ s, (exported m s, surface_handle (known_surfaces b) s)) <$> first_seen E.*2;
  swept_sense_writes :
    Forall is_pair (writes moab.GEOM_SENSE_2 (moab.journal (core b)));
  swept_groups : ∀ g group_set, known_groups b !! g = Some group_set →
    (group_set < moab.next_handle (core b))%N;
  swept_tol_writes : writes moab.FACETING_TOL (moab.journal (core b)) = [];
  swept_categories : categorized "Volume" (moab.journal (core b)) = V;
  swept_surface_categories :
    categorized "Surface" (moab.journal (core b))
    = surface_handle (known_surfaces b) <$> first_seen E.*2;
}.

(** What [make_from_mesh] returns, read through the model's accessors. *)
Record Built (m : gmsh.Model) (model : MOABModel) (b : Build) (V : list N)
  : Prop := {
  built_swept : Swept m V (handle_sweep m (zip V (volume_tags m))) b;
  built_length : length V = length (volume_tags m);
  built_core : _core model = sealed (core b);
  built_volumes : volumes model = V;
  built_surfaces :
    surfaces model
    = surface_handle (known_surfaces b) <$> first_seen (sweep m).*2;
}.

(** What a stretch of surface visits, appending [ops] to the journal,
    leaves as it was: the groups, every tag but the sense of entities that
    existed, and the members of every set. *)
Record Kept (b b' : Build) (ops : list moab.Op) : Prop := {
  kept_journal : moab.journal (core b') = moab.journal (core b) ++ ops;
  kept_groups : known_groups b' = known_groups b;
  kept_model : gmsh.model (session (world b')) = gmsh.model (session (world b));
  kept_next : (moab.next_handle (core b) ≤ moab.next_handle (core b'))%N;
  kept_tags : ∀ t h, t ≠ moab.GEOM_SENSE_2 → (h < moab.next_handle (core b))%N →
    moab.tag_get_data t h (core b') = moab.tag_get_data t h (core b);
  kept_members : ∀ h x, x ∈ moab.members h (core b) → x ∈ moab.members h (core b');
  kept_no_group : categorized "Group" ops = [];
  kept_no_name : writes moab.NAME ops = [];
}.

Global Instance simple_boundaries_dec m : Decision (simple_boundaries m).
Proof. unfold simple_boundaries. apply _. Defined.
Global Instance well_grouped_dec m : Decision (well_grouped m).
Proof. unfold well_grouped. apply _. Defined.

(** ** Meshes to run the builder on *)

Definition group (tag : Z) (volumes : list Z) (name : string) : gmsh.PhysicalGroup :=
  {| gmsh.pg_dim := 3; gmsh.pg_tag := tag; gmsh.pg_entities := volumes;
     gmsh.pg_name := name |}.

(** A sphere of iron: one volume, one closed surface (the mesh of the
    repository's test). *)
Definition sphere : gmsh.Model :=
  {| gmsh.entities3 := [1%Z];
     gmsh.boundary := λ v, if decide (v = 1%Z) then [1%Z] else [];
     gmsh.triangles := λ _, 4;
     gmsh.physical_groups := [group 1 [1%Z] "mat:iron"] |}.

(** Two cells of different materials sharing surface 2. *)
Definition two_cells : gmsh.Model :=
  {| gmsh.entities3 := [1%Z; 2%Z];
     gmsh.boundary := λ v, if decide (v = 1%Z) then [1%Z; 2%Z]
                           else if decide (v = 2%Z) then [2%Z; 3%Z] else [];
     gmsh.triangles := λ _, 2;
     gmsh.physical_groups := [group 1 [1%Z] "mat:iron"; group 2 [2%Z] "mat:water"] |}.

(** Three volumes that all list surface 7. *)
Definition three_on_one : gmsh.Model :=
  {| gmsh.entities3 := [1%Z; 2%Z; 3%Z];
     gmsh.boundary := λ _, [7%Z];
     gmsh.triangles := λ _, 1;
     gmsh.physical_groups := [group 1 [1%Z; 2%Z; 3%Z] "mat:iron"] |}.

(** A block whose physical group is named without the prefix. *)
Definition steel_block : gmsh.Model :=
  {| gmsh.entities3 := [1%Z];
     gmsh.boundary := λ _, [1%Z];
     gmsh.triangles := λ _, 2;
     gmsh.physical_groups := [group 1 [1%Z] "steel"] |}.

(** A volume in no physical group. *)
Definition ungrouped : gmsh.Model :=
  {| gmsh.entities3 := [1%Z];
     gmsh.boundary := λ _, [1%Z];
     gmsh.triangles := λ _, 2;
     gmsh.physical_groups := [] |}.

(** gmsh before [gmsh.initialize()]. *)
Definition idle : gmsh.Session :=
  {| gmsh.initialized := false; gmsh.options := ∅; gmsh.model := gmsh.empty_model;
     gmsh.fltk := false |}.

(** A process that has not touched gmsh yet, and a disk with the meshes
    above; there is no file "missing.msh". *)
Definition disk : World :=
  {| session := idle;
     msh_files := {[ "sphere.msh" := sphere; "two_cells.msh" := two_cells;
                     "three_on_one.msh" := three_on_one;
                     "steel_block.msh" := steel_block;
                     "ungrouped.msh" := ungrouped ]};
     images := [];
     logger_level := 30 |}.

Definition mesh_of (filename : string) : Mesh := {| _mesh_filename := filename |}.

(** The model a run returned; the empty store if it raised. *)
Definition returned (r : Outcome MOABModel * World) : MOABModel :=
  match r.1 with
  | Return model => model
  | Raise _ => {| _core := moab.new |}
  end.

Definition built_from (filename : string) : MOABModel :=
  returned (make_from_mesh (mesh_of filename) disk).

(** A solid, and a reader that finds it in every file. *)
Definition ball : Solid := {| wrapped := Some 1%N |}.
Definition ball_file (filename : string) : Outcome Shape :=
  Return {| solids_of := [ball] |}.

(** A build of [m] from [disk] right after [Mesh.__enter__], and after the
    visit of its first volume. *)
Definition started (m : gmsh.Model) : Build :=
  {| world := entered disk m; core := moab.new; known_surfaces := ∅;
     known_groups := ∅ |}.
Definition after_first_volume (m : gmsh.Model) : Build :=
  match enumerate (volume_tags m) with
  | iv :: _ => (visit_volume _get_moab_tag_handles iv (started m)).2
  | [] => started m
  end.


(** The sets of the physical groups after the volumes [VT] (handle and
    mesh tag) were created: each known group has its three tags and holds
    the volumes of its physical group, nothing else carries the category
    "Group", and a group is known exactly when a volume was in it. *)
Record Assigned (m : gmsh.Model) (VT : list (N * Z)) (b : Build) : Prop := {
  assigned_known : ∀ g G, known_groups b !! g = Some G →
    moab.tag_get_data moab.CATEGORY G (core b) = Some (moab.TOpaque "Group")
    ∧ moab.tag_get_data moab.NAME G (core b)
      = Some (moab.TOpaque (gmsh.get_physical_name 3 g m))
    ∧ moab.tag_get_data moab.GLOBAL_ID G (core b) = Some (moab.TInt g)
    ∧ ∀ h, h ∈ moab.members G (core b)
           ↔ ∃ volume_tag, (h, volume_tag) ∈ VT ∧ groups_of m volume_tag = [g];
  assigned_only : ∀ G,
    moab.tag_get_data moab.CATEGORY G (core b) = Some (moab.TOpaque "Group") →
    ∃ g, known_groups b !! g = Some G;
  assigned_volumes : ∀ h volume_tag g,
    (h, volume_tag) ∈ VT → groups_of m volume_tag = [g] →
    is_Some (known_groups b !! g);
  assigned_used : ∀ g G, known_groups b !! g = Some G →
    ∃ h volume_tag, (h, volume_tag) ∈ VT ∧ groups_of m volume_tag = [g];
}.

(** The kinds of entity the builder makes, each with the values it writes
    on it; [Untagged] is an entity nothing was written on (a triangle). *)
Inductive Kind :=
  | Untagged
  | VolumeSet (global_id : Z)
  | SurfaceSet (global_id : Z) (forward reverse : N)
  | GroupSet (global_id : Z) (name : string)
  | FileSet.

(** The value of each tag on an entity of a kind. *)
Definition tag_of_kind (k : Kind) (t : moab.Tag) : option moab.TagValue :=
  match k, t with
  | VolumeSet i, moab.CATEGORY => Some (moab.TOpaque "Volume")
  | VolumeSet i, moab.GEOM_DIMENSION => Some (moab.TInt 3)
  | VolumeSet i, moab.GLOBAL_ID => Some (moab.TInt i)
  | SurfaceSet s f r, moab.CATEGORY => Some (moab.TOpaque "Surface")
  | SurfaceSet s f r, moab.GEOM_DIMENSION => Some (moab.TInt 2)
  | SurfaceSet s f r, moab.GLOBAL_ID => Some (moab.TInt s)
  | SurfaceSet s f r, moab.GEOM_SENSE_2 => Some (moab.THandles [f; r])
  | GroupSet g name, moab.CATEGORY => Some (moab.TOpaque "Group")
  | GroupSet g name, moab.NAME => Some (moab.TOpaque name)
  | GroupSet g name, moab.GLOBAL_ID => Some (moab.TInt g)
  | FileSet, moab.FACETING_TOL => Some (moab.TDouble faceting_tol_value)
  | _, _ => None
  end.

(** Entity [h] of the store carries the tags of kind [k], and no other. *)
Definition is_kind (c : moab.Core) (h : N) (k : Kind) : Prop :=
  ∀ t, moab.tag_get_data t h c = tag_of_kind k t.

(** The tags during the sweep: every handle is of a kind (the file set
    comes last), what is tagged is an entity set of the store, and the
    triangles are not tagged. *)
Record Schema (b : Build) : Prop := {
  schema_kind : ∀ h, ∃ k, k ≠ FileSet ∧ is_kind (core b) h k;
  schema_sets : ∀ t h v, moab.tag_get_data t h (core b) = Some v →
    (moab.MBENTITYSET, h) ∈ moab.entities (core b);
  schema_triangles : ∀ h, (moab.MBTRI, h) ∈ moab.entities (core b) →
    is_kind (core b) h Untagged;
}.

(** The materials of a list of names, each once, in the order of first
    appearance: the keys of [material_solid_map]. *)
Definition materials_in_order (l : list string) : list string :=
  foldl (λ acc x, if decide (x ∈ acc) then acc else acc ++ [x]) [] l.

(** The solid tags noted under a material, in the order of the solids. *)
Definition tags_of_material (material : string) (l : list (string * Z))
  : list Z :=
  (filter (λ mt, mt.1 = material) l).*2.

(** [material_solid_map] after the solids [l] (material and solid tag) were
    noted, one by one. *)
Definition recorded (l : list (string * Z))
    (material_solid_map : list (string * list Z)) : list (string * list Z) :=
  foldl (λ acc mt, record_solid mt.1 mt.2 acc) material_solid_map l.

(** The solid tag of each solid: the tag of the first entity the OCC import
    makes of it; the list ends at a solid that cannot be imported. *)
Fixpoint solid_tags (occ : N → gmsh.Session → list (Z * Z) * gmsh.Session)
    (solids : list Solid) (g : gmsh.Session) : list Z :=
  match solids with
  | [] => []
  | s :: rest =>
      match wrapped s with
      | None => []
      | Some address =>
          match occ address g with
          | ((_, solid_tag) :: _, g') => solid_tag :: solid_tags occ rest g'
          | ([], _) => []
          end
      end
  end.

(** The exceptions the first loop of [mesh_geometry] can raise. *)
Definition import_errors : list Exn :=
  [AttributeError NoneHasNoAddress; IndexError IndexOutOfRange;
   TypeError NonSolidGeometry].

(** An OCC kernel that makes one volume of every shape, tagged with the
    shape's address. *)
Definition one_volume (address : N) (g : gmsh.Session)
  : list (Z * Z) * gmsh.Session :=
  ([(3%Z, Z.of_N address)], g).

Section GeometryImprint.
(** [BOPAlgo_MakeConnected] belongs to OCC: what it makes of its arguments
    is left open. *)
Variable make_connected : list N → Shape.

(** [Geometry.imprint]: the solids that wrap a shape are the arguments of
    the builder; the others are passed over. *)
Definition imprint (self : Geometry) : Outcome Geometry :=
  let arguments := omap wrapped (solids self) in
  let res := make_connected arguments in
  Geometry_init (solids_of res) (material_names self).
End GeometryImprint.

(** A builder that gives back one solid per argument. *)
Definition one_solid_each (arguments : list N) : Shape :=
  {| solids_of := (λ address, {| wrapped := Some address |}) <$> arguments |}.


(** A disk whose only mesh file holds surfaces and no volume. *)
Definition shell_only : World :=
  {| session := session disk;
     msh_files := {[ "shell.msh" := gmsh.set_groups [group 1 [1%Z] "mat:iron"]
                                      gmsh.empty_model ]};
     images := []; logger_level := 30 |}.

(** * Proofs *)

(** ** Lists *)

Section list_facts.
Context {A : Type}.

Lemma filter_all (P : A → Prop) `{!∀ x, Decision (P x)} (l : list A) :
  Forall P l → filter P l = l.
Proof.
  induction 1 as [|x l Hx _ IH]; [done|].
  by rewrite filter_cons_True, IH.
Qed.

Lemma filter_none (P : A → Prop) `{!∀ x, Decision (P x)} (l : list A) :
  Forall (λ x, ¬ P x) l → filter P l = [].
Proof.
  induction 1 as [|x l Hx _ IH]; [done|].
  by rewrite filter_cons_False, IH.
Qed.

Lemma filter_agree (P1 P2 : A → Prop)
    `{!∀ x, Decision (P1 x), !∀ x, Decision (P2 x)} (l : list A) :
  (∀ x, x ∈ l → P1 x ↔ P2 x) → filter P1 l = filter P2 l.
Proof.
  induction l as [|a l IH]; intros Hag; [done|].
  rewrite !filter_cons.
  rewrite IH by (intros; apply Hag; by right).
  apply decide_ext, Hag. by left.
Qed.
End list_facts.

(** ** One visit of a surface, run *)

Lemma max_tag_bound dim pgs pg :
  pg ∈ pgs → gmsh.pg_dim pg = dim → (gmsh.pg_tag pg ≤ gmsh.max_tag dim pgs)%Z.
Proof.
  induction pgs as [|q pgs IH]; simpl; [by intros ?%elem_of_nil|].
  intros [->|Hin]%elem_of_cons Hd.
  - rewrite decide_True by done. lia.
  - specialize (IH Hin Hd). case_decide; lia.
Qed.

(** The temporary 2D group of the export leaves the model as it was. *)
Lemma export_restores_model s m :
  gmsh.remove_physical_groups
    [(2%Z, (gmsh.add_physical_group 2 [s] "" m).1)]
    (gmsh.add_physical_group 2 [s] "" m).2 = m.
Proof.
  destruct m as [es bd tr pgs].
  unfold gmsh.remove_physical_groups, gmsh.add_physical_group, gmsh.set_groups; simpl.
  f_equal. rewrite filter_app.
  rewrite (filter_none _ [_]).
  2:{ constructor; [|constructor]. intros H. apply H. unfold gmsh.listed; simpl.
      by apply list_elem_of_singleton. }
  rewrite app_nil_r. apply filter_all, Forall_forall.
  intros pg Hin [Hd Ht]%list_elem_of_singleton%pair_eq. 
  pose proof (max_tag_bound 2 pgs pg Hin Hd). simpl in *. lia.
Qed.

Lemma visit_surface_new v s b :
  known_surfaces b !! s = None →
  visit_surface tags0 v s b
  = (Return tt,
     {| world := world b;
        core := new_surface_core v s
                  (exported (gmsh.model (session (world b))) s) (core b);
        known_surfaces :=
          <[s := {| handle := moab.next_handle (core b); forward_volume := v;
                    reverse_volume := 0 |}]> (known_surfaces b);
        known_groups := known_groups b |}).
Proof.
  intros Hs. destruct b as [[g fs im lv] c ks kg]; simpl in *.
  unfold visit_surface; run_py. rewrite Hs; simpl.
  unfold new_surface_core, exported; simpl.
  do 2 f_equal. f_equal.
  destruct g as [i o m f]; unfold gmsh.set_model; simpl. f_equal.
  apply export_restores_model.
Qed.

Lemma visit_surface_seen v s b surface :
  known_surfaces b !! s = Some surface →
  visit_surface tags0 v s b
  = (Return tt,
     {| world := world b;
        core := seen_surface_core v surface (core b);
        known_surfaces := <[s := set_reverse_volume v surface]> (known_surfaces b);
        known_groups := known_groups b |}).
Proof.
  intros Hs. destruct b as [w c ks kg]; simpl in *.
  unfold visit_surface; run_py. rewrite Hs; simpl. done.
Qed.

(** ** Facts about the vocabulary *)

Lemma first_seen_snoc l s :
  first_seen (l ++ [s])
  = if decide (s ∈ first_seen l) then first_seen l else first_seen l ++ [s].
Proof. unfold first_seen. by rewrite foldl_app. Qed.

Lemma first_seen_elem_of l s : s ∈ first_seen l ↔ s ∈ l.
Proof.
  revert s. induction l as [|x l IH] using rev_ind; intros s; [done|].
  rewrite first_seen_snoc, elem_of_app, list_elem_of_singleton.
  case_decide as Hx; [|rewrite elem_of_app, list_elem_of_singleton];
    rewrite IH; [|tauto].
  split; [tauto|]. intros [?| ->]; [done|]. by apply IH.
Qed.


Lemma visitors_snoc E v s s' :
  visitors (E ++ [(v, s)]) s'
  = visitors E s' ++ (if decide (s = s') then [v] else []).
Proof.
  unfold visitors. rewrite filter_app, fmap_app. f_equal.
  rewrite filter_cons, filter_nil; simpl. by case_decide.
Qed.

Lemma visitors_nil E s : s ∉ E.*2 → visitors E s = [].
Proof.
  intros Hs. unfold visitors. rewrite filter_none; [done|].
  apply Forall_forall. intros [v s'] Hin ?; simpl in *; subst.
  apply Hs. apply list_elem_of_fmap. by exists (v, s).
Qed.

Lemma visitors_not_nil E s : s ∈ E.*2 → visitors E s ≠ [].
Proof.
  intros ([v s'] & -> & Hin)%list_elem_of_fmap Hnil; simpl in *.
  assert (v ∈ visitors E s') as H; [|rewrite Hnil in H; by apply elem_of_nil in H].
  unfold visitors. apply list_elem_of_fmap. exists (v, s'). split; [done|].
  by apply list_elem_of_filter.
Qed.

Lemma sense_after_more l v :
  l ≠ [] → sense_after (l ++ [v]) = [default 0%N (head l); v].
Proof.
  destruct l as [|a l]; [done|intros _].
  pose proof (last_snoc v (a :: l)) as Hlast.
  unfold sense_after. destruct l as [|a' l]; simpl in *; [done|].
  by rewrite Hlast.
Qed.

(** ** The journal and the sets of a dimension *)

Lemma loads_app l1 l2 : loads (l1 ++ l2) = loads l1 ++ loads l2.
Proof. unfold loads. by rewrite bind_app. Qed.
Lemma writes_app t l1 l2 : writes t (l1 ++ l2) = writes t l1 ++ writes t l2.
Proof. unfold writes. by rewrite bind_app. Qed.
Lemma categorized_app text l1 l2 :
  categorized text (l1 ++ l2) = categorized text l1 ++ categorized text l2.
Proof. unfold categorized. by rewrite writes_app, filter_app, fmap_app. Qed.

(** Sets of a dimension after the store grew. *)
Lemma sets_of_dimension_grow ty t v c c' extra :
  moab.entities c' = moab.entities c ++ extra →
  (∀ e, e ∈ moab.entities c →
        moab.tag_get_data t e.2 c' = moab.tag_get_data t e.2 c) →
  moab.get_entities_by_type_and_tag ty t v c'
  = moab.get_entities_by_type_and_tag ty t v c
    ++ (filter (moab.typed_and_tagged c' ty t v) extra).*2.
Proof.
  intros He Ht. unfold moab.get_entities_by_type_and_tag.
  rewrite He, filter_app, fmap_app. f_equal. f_equal.
  apply filter_agree. intros e Hin. unfold moab.typed_and_tagged.
  by rewrite Ht.
Qed.

Lemma sets_of_dimension_elem ty t v c h :
  h ∈ moab.get_entities_by_type_and_tag ty t v c →
  (ty, h) ∈ moab.entities c ∧ moab.tag_get_data t h c = Some (moab.TInt v).
Proof.
  unfold moab.get_entities_by_type_and_tag.
  intros ([ty' h'] & -> & [[Hty Htag] Hin]%list_elem_of_filter)%list_elem_of_fmap.
  simpl in *. by subst.
Qed.


(** Linking keeps the two directions in step. *)
Lemma add_once_elem h l x : x ∈ moab.add_once h l ↔ x = h ∨ x ∈ l.
Proof.
  unfold moab.add_once. case_decide as Hh.
  - split; [by right|]. by intros [->|].
  - rewrite elem_of_app, list_elem_of_singleton. tauto.
Qed.

Lemma linked_add_parent_child parent child c0 :
  (∀ p c, c ∈ moab.get_child_meshsets p c0 ↔ p ∈ moab.get_parent_meshsets c c0) →
  ∀ p c,
    c ∈ moab.get_child_meshsets p (moab.add_parent_child parent child c0)
    ↔ p ∈ moab.get_parent_meshsets c (moab.add_parent_child parent child c0).
Proof.
  intros Hl p c. unfold moab.get_child_meshsets, moab.get_parent_meshsets; simpl.
  rewrite !lookup_insert. 
  destruct (decide (parent = p)) as [->|Hp], (decide (child = c)) as [->|Hc]; simpl;
    rewrite ?add_once_elem; fold (moab.get_child_meshsets p c0);
    fold (moab.get_parent_meshsets c c0); rewrite ?Hl; intuition congruence.
Qed.

(** ** The invariant holds after each visit of a surface *)

Lemma tag_lookup_insert_other (td : gmap (moab.Tag * N) moab.TagValue) t h t' h' v :
  h' ≠ h → <[(t', h') := v]> td !! (t, h) = td !! (t, h).
Proof. intros. apply lookup_insert_ne. congruence. Qed.

Lemma new_surface_tag_other v s stl c t h :
  h ≠ moab.next_handle c →
  moab.tag_get_data t h (new_surface_core v s stl c) = moab.tag_get_data t h c.
Proof.
  intros Hh. unfold new_surface_core, moab.tag_get_data; simpl.
  by rewrite !tag_lookup_insert_other.
Qed.

Lemma volumes_below m V E b h :
  Swept m V E b → h ∈ V → (h < moab.next_handle (core b))%N.
Proof.
  intros HS Hin. rewrite <- (swept_volumes _ _ _ _ HS) in Hin.
  apply sets_of_dimension_elem in Hin as [Hin _].
  by apply (swept_entities _ _ _ _ HS) in Hin as [_ ?].
Qed.

Lemma surface_handle_insert_other known s s' x :
  s ≠ s' → surface_handle (<[s := x]> known) s' = surface_handle known s'.
Proof. intros. unfold surface_handle. by rewrite lookup_insert_ne. Qed.

Lemma visit_new_surface_swept m V E b v s :
  Swept m V E b → known_surfaces b !! s = None →
  Swept m V (E ++ [(v, s)])
    {| world := world b;
       core := new_surface_core v s (exported m s) (core b);
       known_surfaces :=
         <[s := {| handle := moab.next_handle (core b); forward_volume := v;
                   reverse_volume := 0 |}]> (known_surfaces b);
       known_groups := known_groups b |}.
Proof.
  intros HS Hs. pose proof (swept_unknown _ _ _ _ HS _ Hs) as HsE.
  set (h := moab.next_handle (core b)).
  assert (∀ e, e ∈ moab.entities (core b) → e.2 ≠ h) as Hold.
  { intros e He. apply (swept_entities _ _ _ _ HS) in He. unfold h. lia. }
  assert (first_seen (E ++ [(v, s)]).*2 = first_seen E.*2 ++ [s]) as Hfs.
  { rewrite fmap_app; simpl. rewrite first_seen_snoc, decide_False; [done|].
    by rewrite first_seen_elem_of. }
  assert (∀ s', s' ∈ first_seen E.*2 → s ≠ s') as Hne.
  { intros s' Hin ->. apply (proj1 (first_seen_elem_of _ _)) in Hin. exact (HsE Hin). }
  split; simpl.
  - apply HS.
  - unfold new_surface_core; simpl. lia.
  - intros e. unfold new_surface_core; simpl. fold h.
    pose proof (swept_next _ _ _ _ HS).
    rewrite !elem_of_app, list_elem_of_singleton.
    intros [[He| ->]|He]; simpl.
    + apply (swept_entities _ _ _ _ HS) in He. lia.
    + fold h in H. lia.
    + apply list_elem_of_fmap in He as (h' & -> & Hh'); simpl.
      apply list_elem_of_fmap in Hh' as (k & -> & Hk).
      apply elem_of_seq in Hk. fold h in H. lia.
  - intros t h' x. destruct (decide (h' = h)) as [->|Hh'].
    + intros _. unfold new_surface_core; simpl. fold h. lia.
    + rewrite new_surface_tag_other by done. intros Hx.
      apply (swept_tagged _ _ _ _ HS) in Hx. unfold new_surface_core; simpl. lia.
  - intros h'. unfold new_surface_core; simpl. fold h. intros Hh'.
    rewrite lookup_insert_ne by lia. apply (swept_contents _ _ _ _ HS). fold h. lia.
  - intros h'. unfold new_surface_core, moab.tag_get_data; simpl.
    rewrite !lookup_insert_ne by congruence. apply (swept_no_tol _ _ _ _ HS).
  - unfold new_surface_core. apply linked_add_parent_child. apply HS.
  - rewrite (sets_of_dimension_grow _ _ _ (core b) _
               ([(moab.MBENTITYSET, h)] ++
                ((λ h, (moab.MBTRI, h)) <$>
                   ((λ k, (N.succ h + N.of_nat k)%N) <$> seq 0 (moab.stl_facets (exported m s)))))).
    + rewrite filter_none, app_nil_r; [apply HS|].
      apply Forall_app. split.
      * constructor; [|constructor]. intros [_ Ht]; simpl in Ht.
        unfold new_surface_core, moab.tag_get_data in Ht; simpl in Ht. fold h in Ht.
        rewrite lookup_insert_ne, lookup_insert_ne, lookup_insert_eq in Ht by congruence.
        congruence.
      * apply Forall_forall. intros e (h' & -> & _)%list_elem_of_fmap [Hty _].
        done.
    + unfold new_surface_core; simpl. fold h. by rewrite <- app_assoc.
    + intros e He. apply new_surface_tag_other. by apply Hold.
  - intros i h' Hi. rewrite new_surface_tag_other.
    + by apply (swept_global_id _ _ _ _ HS).
    + apply list_elem_of_lookup_2 in Hi.
      pose proof (volumes_below _ _ _ _ _ HS Hi). fold h in H. lia.
  - rewrite (sets_of_dimension_grow _ _ _ (core b) _
               ([(moab.MBENTITYSET, h)] ++
                ((λ h, (moab.MBTRI, h)) <$>
                   ((λ k, (N.succ h + N.of_nat k)%N) <$> seq 0 (moab.stl_facets (exported m s)))))).
    + rewrite filter_app, filter_cons_True, filter_nil, (filter_none _ (_ <$> _)).
      * rewrite Hfs, (fmap_app _ (first_seen E.*2)); simpl. f_equal.
        -- rewrite (swept_surfaces _ _ _ _ HS). apply Forall_fmap_ext_1, Forall_forall.
           intros s' Hs'. symmetry. apply surface_handle_insert_other. by apply Hne.
        -- unfold surface_handle. by rewrite lookup_insert_eq.
      * apply Forall_forall. intros e (h' & -> & _)%list_elem_of_fmap [Hty _].
        done.
      * split; [done|]. simpl.
        unfold new_surface_core, moab.tag_get_data; simpl. fold h.
        by rewrite lookup_insert_ne, lookup_insert_ne, lookup_insert_eq by congruence.
    + unfold new_surface_core; simpl. fold h. by rewrite <- app_assoc.
    + intros e He. apply new_surface_tag_other. by apply Hold.
  - intros s' Hs'. rewrite fmap_app, elem_of_app; simpl.
    rewrite list_elem_of_singleton.
    destruct (decide (s = s')) as [->|Hss].
    + by rewrite lookup_insert_eq in Hs'.
    + rewrite lookup_insert_ne in Hs' by done.
      apply (swept_unknown _ _ _ _ HS) in Hs'. intros [?|?]; [done|congruence].
  - intros s' surface. rewrite fmap_app, elem_of_app, visitors_snoc; simpl.
    rewrite list_elem_of_singleton.
    destruct (decide (s = s')) as [<-|Hss].
    + rewrite lookup_insert_eq. intros [= <-]; simpl. fold h.
      rewrite (visitors_nil _ _ HsE); simpl.
      split_and!; [by right| |done| |].
      * unfold new_surface_core; simpl. fold h. lia.
      * unfold new_surface_core, moab.tag_get_data; simpl. fold h.
        by rewrite lookup_insert_eq.
      * unfold new_surface_core, moab.tag_get_data; simpl. fold h.
        by rewrite !lookup_insert_ne, lookup_insert_eq by congruence.
    + rewrite lookup_insert_ne by done. intros Hk.
      destruct (swept_known _ _ _ _ HS _ _ Hk) as (HE & Hlt & Hsd & Htag & Hgid).
      fold h in Hlt. rewrite app_nil_r.
      rewrite !new_surface_tag_other by lia.
      split_and!; [by left| |done..].
      unfold new_surface_core; simpl. fold h. lia.
  - intros s1 s2 a1 a2.
    destruct (decide (s = s1)) as [<-|H1], (decide (s = s2)) as [<-|H2];
      rewrite ?lookup_insert_eq, ?lookup_insert_ne by done; [done|..].
    + intros [= <-] Hk; simpl.
      destruct (swept_known _ _ _ _ HS _ _ Hk) as (_ & Hlt & _). fold h in Hlt. lia.
    + intros Hk [= <-]; simpl.
      destruct (swept_known _ _ _ _ HS _ _ Hk) as (_ & Hlt & _). fold h in Hlt. lia.
    + apply HS.
  - unfold new_surface_core; simpl. rewrite !loads_app; simpl.
    rewrite !app_nil_r. rewrite Hfs, fmap_app; simpl. f_equal.
    + rewrite (swept_loads _ _ _ _ HS). apply Forall_fmap_ext_1, Forall_forall.
      intros s' Hs'. f_equal. symmetry. apply surface_handle_insert_other. by apply Hne.
    + unfold surface_handle. by rewrite lookup_insert_eq.
  - unfold new_surface_core; simpl. rewrite !writes_app; simpl.
    rewrite !app_nil_r. apply Forall_app. split; [apply HS|].
    constructor; [|constructor]. by eexists _, _.
  - intros g gs Hg. apply (swept_groups _ _ _ _ HS) in Hg.
    unfold new_surface_core; simpl. lia.
  - unfold new_surface_core; simpl. rewrite !writes_app; simpl.
    rewrite !app_nil_r. apply HS.
  - unfold new_surface_core; simpl. rewrite !categorized_app; simpl.
    rewrite !app_nil_r. apply HS.
  - unfold new_surface_core; simpl. rewrite !categorized_app; simpl.
    rewrite !app_nil_r. rewrite Hfs, (fmap_app _ (first_seen E.*2)); simpl. f_equal.
    + rewrite (swept_surface_categories _ _ _ _ HS).
      apply Forall_fmap_ext_1, Forall_forall.
      intros s' Hs'. symmetry. apply surface_handle_insert_other. by apply Hne.
    + unfold surface_handle. by rewrite lookup_insert_eq.
Qed.

Lemma sets_of_dimension_same ty t v c c' :
  moab.entities c' = moab.entities c →
  (∀ e, e ∈ moab.entities c →
        moab.tag_get_data t e.2 c' = moab.tag_get_data t e.2 c) →
  moab.get_entities_by_type_and_tag ty t v c'
  = moab.get_entities_by_type_and_tag ty t v c.
Proof.
  intros He Ht.
  rewrite (sets_of_dimension_grow ty t v c c' []); [|by rewrite app_nil_r|done].
  by rewrite filter_nil, app_nil_r.
Qed.

Lemma surface_handle_update known s surface v :
  known !! s = Some surface →
  ∀ s', surface_handle (<[s := set_reverse_volume v surface]> known) s'
        = surface_handle known s'.
Proof.
  intros Hk s'. unfold surface_handle.
  destruct (decide (s = s')) as [<-|Hne].
  - by rewrite lookup_insert_eq, Hk.
  - by rewrite lookup_insert_ne.
Qed.

Lemma seen_surface_tag_other v surface c t h :
  (t, h) ≠ (moab.GEOM_SENSE_2, handle surface) →
  moab.tag_get_data t h (seen_surface_core v surface c) = moab.tag_get_data t h c.
Proof.
  intros Hh. unfold seen_surface_core, moab.tag_get_data; simpl.
  by rewrite lookup_insert_ne.
Qed.

Lemma visit_seen_surface_swept m V E b v s surface :
  Swept m V E b → known_surfaces b !! s = Some surface →
  Swept m V (E ++ [(v, s)])
    {| world := world b;
       core := seen_surface_core v surface (core b);
       known_surfaces := <[s := set_reverse_volume v surface]> (known_surfaces b);
       known_groups := known_groups b |}.
Proof.
  intros HS Hs.
  destruct (swept_known _ _ _ _ HS _ _ Hs) as (HsE & Hlt & Hsd & Htag & Hgid).
  assert (first_seen (E ++ [(v, s)]).*2 = first_seen E.*2) as Hfs.
  { rewrite fmap_app; simpl. rewrite first_seen_snoc, decide_True; [done|].
    by apply first_seen_elem_of. }
  split; simpl.
  - apply HS.
  - apply HS.
  - apply HS.
  - intros t h x. unfold seen_surface_core, moab.tag_get_data; simpl.
    rewrite lookup_insert. case_decide as Heq.
    + by injection Heq as <- <-.
    + apply (swept_tagged _ _ _ _ HS).
  - apply HS.
  - intros h. rewrite seen_surface_tag_other by congruence. apply HS.
  - unfold seen_surface_core. apply linked_add_parent_child. apply HS.
  - rewrite sets_of_dimension_same with (c := core b); [apply HS|done|].
    intros e _. apply seen_surface_tag_other. congruence.
  - intros i h Hi. rewrite seen_surface_tag_other by congruence.
    by apply (swept_global_id _ _ _ _ HS).
  - rewrite sets_of_dimension_same with (c := core b); [|done|].
    + rewrite Hfs, (swept_surfaces _ _ _ _ HS).
      apply Forall_fmap_ext_1, Forall_forall. intros s' _. symmetry.
      by apply surface_handle_update.
    + intros e _. apply seen_surface_tag_other. congruence.
  - intros s' Hs'. destruct (decide (s = s')) as [<-|Hne].
    + by rewrite lookup_insert_eq in Hs'.
    + rewrite lookup_insert_ne in Hs' by done.
      apply (swept_unknown _ _ _ _ HS) in Hs'.
      rewrite fmap_app, elem_of_app; simpl. rewrite list_elem_of_singleton.
      intros [?|?]; [done|congruence].
  - intros s' surface'. rewrite fmap_app, elem_of_app, visitors_snoc; simpl.
    destruct (decide (s = s')) as [<-|Hne].
    + rewrite lookup_insert_eq. intros [= <-]; simpl.
      split_and!; [by left|done| | |].
      * rewrite sense_after_more by by apply visitors_not_nil.
        unfold sense_data; simpl. do 2 f_equal.
        unfold sense_data, sense_after in Hsd. by injection Hsd as ->.
      * unfold seen_surface_core, moab.tag_get_data; simpl.
        by rewrite lookup_insert_eq.
      * rewrite seen_surface_tag_other by congruence. done.
    + rewrite lookup_insert_ne by done. intros Hk.
      destruct (swept_known _ _ _ _ HS _ _ Hk) as (HE' & Hlt' & Hsd' & Htag' & Hgid').
      rewrite app_nil_r. rewrite !seen_surface_tag_other.
      * split_and!; [by left|done..].
      * congruence.
      * intros [= Heq]. apply Hne. symmetry.
        by apply (swept_distinct _ _ _ _ HS s' s surface' surface).
  - intros s1 s2 a1 a2 H1 H2.
    assert (∀ s' a, <[s:=set_reverse_volume v surface]> (known_surfaces b) !! s' = Some a →
              ∃ a', known_surfaces b !! s' = Some a' ∧ handle a' = handle a) as Hback.
    { intros s' a. destruct (decide (s = s')) as [<-|Hne].
      - rewrite lookup_insert_eq. intros [= <-]. by exists surface.
      - rewrite lookup_insert_ne by done. intros. by exists a. }
    apply Hback in H1 as (a1' & H1 & <-). apply Hback in H2 as (a2' & H2 & <-).
    by apply (swept_distinct _ _ _ _ HS).
  - unfold seen_surface_core; simpl. rewrite !loads_app; simpl.
    rewrite !app_nil_r, Hfs, (swept_loads _ _ _ _ HS).
    apply Forall_fmap_ext_1, Forall_forall. intros s' _. f_equal. symmetry.
    by apply surface_handle_update.
  - unfold seen_surface_core; simpl. rewrite !writes_app; simpl.
    rewrite !app_nil_r. apply Forall_app. split; [apply HS|].
    constructor; [|constructor]. by eexists _, _.
  - apply HS.
  - unfold seen_surface_core; simpl. rewrite !writes_app; simpl.
    rewrite !app_nil_r. apply HS.
  - unfold seen_surface_core; simpl. rewrite !categorized_app; simpl.
    rewrite !app_nil_r. apply HS.
  - unfold seen_surface_core; simpl. rewrite !categorized_app; simpl.
    rewrite !app_nil_r, Hfs, (swept_surface_categories _ _ _ _ HS).
    apply Forall_fmap_ext_1, Forall_forall. intros s' _. symmetry.
    by apply surface_handle_update.
Qed.

Lemma visit_surface_swept m V E b v s :
  Swept m V E b →
  ∃ b', visit_surface tags0 v s b = (Return tt, b') ∧ Swept m V (E ++ [(v, s)]) b'.
Proof.
  intros HS. destruct (known_surfaces b !! s) as [surface|] eqn:Hs.
  - eexists. split; [by apply visit_surface_seen|]. by apply visit_seen_surface_swept.
  - eexists. split; [by apply visit_surface_new|].
    rewrite (swept_model _ _ _ _ HS). by apply visit_new_surface_swept.
Qed.

Lemma visit_surfaces_swept m V E b v ss :
  Swept m V E b →
  ∃ b', for_each ss (visit_surface tags0 v) b = (Return tt, b')
        ∧ Swept m V (E ++ ((λ s, (v, s)) <$> ss)) b'.
Proof.
  revert E b. induction ss as [|s ss IH]; intros E b HS; simpl.
  - exists b. split; [done|]. by rewrite app_nil_r.
  - destruct (visit_surface_swept _ _ _ _ v s HS) as (b1 & Hrun & HS1).
    destruct (IH _ _ HS1) as (b2 & Hrun2 & HS2).
    exists b2. split.
    + unfold bind. by rewrite Hrun.
    + by rewrite <- app_assoc in HS2.
Qed.

(** ** One visit of a volume *)

Lemma visit_volume_run i volume_tag b :
  let m := gmsh.model (session (world b)) in
  let v := moab.next_handle (core b) in
  visit_volume tags0 (i, volume_tag) b
  = match groups_of m volume_tag with
    | [g] =>
        let cg := grouped g (gmsh.get_physical_name 3 g m) v
                    (new_volume_core i (core b)) (known_groups b) in
        for_each (surfaces_of m volume_tag) (visit_surface tags0 v)
          {| world := world b; core := cg.1;
             known_surfaces := known_surfaces b; known_groups := cg.2 |}
    | l =>
        (Raise (ValueError (VolumeGroups volume_tag v (length l))),
         {| world := world b; core := new_volume_core i (core b);
            known_surfaces := known_surfaces b; known_groups := known_groups b |})
    end.
Proof.
  destruct b as [w c ks kg]; simpl.
  unfold visit_volume; run_py. unfold groups_of.
  destruct (gmsh.get_physical_groups_for_entity 3 volume_tag (gmsh.model (session w)))
    as [|g [|g' l]]; simpl; [done| |done].
  unfold grouped. simpl.
  destruct (kg !! g) as [gs|] eqn:Hg; simpl; done.
Qed.

Lemma tag_get_add_entity t h s e c :
  moab.tag_get_data t h (moab.add_entity s e c) = moab.tag_get_data t h c.
Proof. done. Qed.

Lemma new_volume_tag_other i c t h :
  h ≠ moab.next_handle c →
  moab.tag_get_data t h (new_volume_core i c) = moab.tag_get_data t h c.
Proof.
  intros Hh. unfold new_volume_core, moab.tag_get_data; simpl.
  by rewrite !tag_lookup_insert_other.
Qed.

Lemma new_group_tag_other g name c t h :
  h ≠ moab.next_handle c →
  moab.tag_get_data t h (new_group_core g name c) = moab.tag_get_data t h c.
Proof.
  intros Hh. unfold new_group_core, moab.tag_get_data; simpl.
  by rewrite !tag_lookup_insert_other.
Qed.

Lemma new_volume_swept m V E b :
  Swept m V E b →
  Swept m (V ++ [moab.next_handle (core b)]) E
    {| world := world b; core := new_volume_core (length V) (core b);
       known_surfaces := known_surfaces b; known_groups := known_groups b |}.
Proof.
  intros HS. set (v := moab.next_handle (core b)).
  pose proof (swept_next _ _ _ _ HS) as Hpos. fold v in Hpos.
  assert (∀ e, e ∈ moab.entities (core b) → e.2 ≠ v) as Hold.
  { intros e He. apply (swept_entities _ _ _ _ HS) in He. unfold v. lia. }
  split; simpl.
  - apply HS.
  - unfold new_volume_core; simpl. lia.
  - intros e. unfold new_volume_core; simpl. fold v.
    rewrite elem_of_app, list_elem_of_singleton. intros [He| ->]; simpl; [|lia].
    apply (swept_entities _ _ _ _ HS) in He. lia.
  - intros t h x. destruct (decide (h = v)) as [->|Hh].
    + intros _. unfold new_volume_core; simpl. fold v. lia.
    + rewrite new_volume_tag_other by done. intros Hx.
      apply (swept_tagged _ _ _ _ HS) in Hx. unfold new_volume_core; simpl. lia.
  - intros h. unfold new_volume_core; simpl. fold v. intros Hh.
    apply (swept_contents _ _ _ _ HS). fold v. lia.
  - intros h. unfold new_volume_core, moab.tag_get_data; simpl.
    rewrite !lookup_insert_ne by congruence. apply (swept_no_tol _ _ _ _ HS).
  - apply HS.
  - rewrite (sets_of_dimension_grow _ _ _ (core b) _ [(moab.MBENTITYSET, v)]).
    + rewrite filter_cons_True, filter_nil; simpl.
      * f_equal. apply HS.
      * split; [done|]. simpl. unfold new_volume_core, moab.tag_get_data; simpl.
        fold v. by rewrite lookup_insert_ne, lookup_insert_eq by congruence.
    + done.
    + intros e He. apply new_volume_tag_other. by apply Hold.
  - intros i h Hi. apply lookup_app_Some in Hi as [Hi|[Hlen Hi]].
    + rewrite new_volume_tag_other; [by apply (swept_global_id _ _ _ _ HS)|].
      apply list_elem_of_lookup_2 in Hi.
      pose proof (volumes_below _ _ _ _ _ HS Hi). fold v in H. lia.
    + apply list_lookup_singleton_Some in Hi as [Hi <-].
      assert (i = length V) as -> by lia.
      unfold new_volume_core, moab.tag_get_data; simpl. fold v.
      by rewrite !lookup_insert_ne, lookup_insert_eq by congruence.
  - rewrite (sets_of_dimension_grow _ _ _ (core b) _ [(moab.MBENTITYSET, v)]).
    + rewrite filter_cons_False, filter_nil, app_nil_r; [apply HS|].
      intros [_ Ht]; simpl in Ht. unfold new_volume_core, moab.tag_get_data in Ht;
        simpl in Ht. fold v in Ht.
      rewrite lookup_insert_ne, lookup_insert_eq in Ht by congruence. congruence.
    + done.
    + intros e He. apply new_volume_tag_other. by apply Hold.
  - apply HS.
  - intros s surface Hk.
    destruct (swept_known _ _ _ _ HS _ _ Hk) as (HE & Hlt & Hsd & Htag & Hgid).
    fold v in Hlt. rewrite !new_volume_tag_other by lia.
    split_and!; [done| |done..]. unfold new_volume_core; simpl. fold v. lia.
  - apply HS.
  - unfold new_volume_core; simpl. rewrite !loads_app; simpl.
    rewrite !app_nil_r. apply HS.
  - unfold new_volume_core; simpl. rewrite !writes_app; simpl.
    rewrite !app_nil_r. apply HS.
  - intros g gs Hg. apply (swept_groups _ _ _ _ HS) in Hg.
    unfold new_volume_core; simpl. lia.
  - unfold new_volume_core; simpl. rewrite !writes_app; simpl.
    rewrite !app_nil_r. apply HS.
  - unfold new_volume_core; simpl. rewrite !categorized_app; simpl.
    rewrite !app_nil_r. f_equal. apply HS.
  - unfold new_volume_core; simpl. rewrite !categorized_app; simpl.
    rewrite !app_nil_r. apply HS.
Qed.

Lemma grouped_swept m V E b g name v :
  Swept m V E b →
  let cg := grouped g name v (core b) (known_groups b) in
  Swept m V E
    {| world := world b; core := cg.1;
       known_surfaces := known_surfaces b; known_groups := cg.2 |}.
Proof.
  intros HS. unfold grouped.
  destruct (known_groups b !! g) as [gs|] eqn:Hg; simpl.
  - pose proof (swept_groups _ _ _ _ HS _ _ Hg) as Hgs.
    split; simpl; try apply HS.
    + intros h Hh. rewrite lookup_insert_ne by lia. by apply (swept_contents _ _ _ _ HS).
    + unfold moab.add_entity; simpl. rewrite loads_app; simpl. rewrite app_nil_r.
      apply HS.
    + unfold moab.add_entity; simpl. rewrite writes_app; simpl. rewrite app_nil_r.
      apply HS.
    + unfold moab.add_entity; simpl. rewrite writes_app; simpl. rewrite app_nil_r.
      apply HS.
    + unfold moab.add_entity; simpl. rewrite categorized_app; simpl.
      rewrite app_nil_r. apply HS.
    + unfold moab.add_entity; simpl. rewrite categorized_app; simpl.
      rewrite app_nil_r. apply HS.
  - set (gs := moab.next_handle (core b)).
    pose proof (swept_next _ _ _ _ HS) as Hpos. fold gs in Hpos.
    assert (∀ e, e ∈ moab.entities (core b) → e.2 ≠ gs) as Hold.
    { intros e He. apply (swept_entities _ _ _ _ HS) in He. unfold gs. lia. }
    split; simpl.
    + apply HS.
    + unfold new_group_core; simpl. lia.
    + intros e. unfold new_group_core; simpl. fold gs.
      rewrite elem_of_app, list_elem_of_singleton. intros [He| ->]; simpl; [|lia].
      apply (swept_entities _ _ _ _ HS) in He. lia.
    + intros t h x. rewrite tag_get_add_entity.
      destruct (decide (h = gs)) as [->|Hh].
      * intros _. unfold new_group_core; simpl. fold gs. lia.
      * rewrite new_group_tag_other by done. intros Hx.
        apply (swept_tagged _ _ _ _ HS) in Hx. unfold new_group_core; simpl. lia.
    + intros h. unfold new_group_core; simpl. fold gs. intros Hh.
      rewrite lookup_insert_ne by lia. apply (swept_contents _ _ _ _ HS). fold gs. lia.
    + intros h. unfold new_group_core, moab.tag_get_data; simpl.
      rewrite !lookup_insert_ne by congruence. apply (swept_no_tol _ _ _ _ HS).
    + apply HS.
    + rewrite (sets_of_dimension_grow _ _ _ (core b) _ [(moab.MBENTITYSET, gs)]).
      * rewrite filter_cons_False, filter_nil, app_nil_r; [apply HS|].
        intros [_ Ht]; simpl in Ht. rewrite tag_get_add_entity in Ht.
        unfold new_group_core, moab.tag_get_data in Ht; simpl in Ht. fold gs in Ht.
        rewrite !lookup_insert_ne in Ht by congruence.
        pose proof (swept_tagged _ _ _ _ HS moab.GEOM_DIMENSION gs (moab.TInt 3) Ht).
        fold gs in H. lia.
      * done.
      * intros e He. rewrite tag_get_add_entity.
        apply new_group_tag_other. by apply Hold.
    + intros i h Hi. rewrite tag_get_add_entity, new_group_tag_other.
      * by apply (swept_global_id _ _ _ _ HS).
      * apply list_elem_of_lookup_2 in Hi.
        pose proof (volumes_below _ _ _ _ _ HS Hi). fold gs in H. lia.
    + rewrite (sets_of_dimension_grow _ _ _ (core b) _ [(moab.MBENTITYSET, gs)]).
      * rewrite filter_cons_False, filter_nil, app_nil_r; [apply HS|].
        intros [_ Ht]; simpl in Ht. rewrite tag_get_add_entity in Ht.
        unfold new_group_core, moab.tag_get_data in Ht; simpl in Ht. fold gs in Ht.
        rewrite !lookup_insert_ne in Ht by congruence.
        pose proof (swept_tagged _ _ _ _ HS moab.GEOM_DIMENSION gs (moab.TInt 2) Ht).
        fold gs in H. lia.
      * done.
      * intros e He. rewrite tag_get_add_entity.
        apply new_group_tag_other. by apply Hold.
    + apply HS.
    + intros s surface Hk.
      destruct (swept_known _ _ _ _ HS _ _ Hk) as (HE & Hlt & Hsd & Htag & Hgid).
      fold gs in Hlt. rewrite !tag_get_add_entity, !new_group_tag_other by lia.
      split_and!; [done| |done..]. unfold new_group_core; simpl. fold gs. lia.
    + apply HS.
    + unfold new_group_core; simpl. rewrite !loads_app; simpl.
      rewrite !app_nil_r. apply HS.
    + unfold new_group_core; simpl. rewrite !writes_app; simpl.
      rewrite !app_nil_r. apply HS.
    + intros g' gs'. unfold new_group_core; simpl. fold gs.
      rewrite lookup_insert. case_decide.
      * intros [= <-]. lia.
      * intros Hg'. apply (swept_groups _ _ _ _ HS) in Hg'. fold gs in Hg'. lia.
    + unfold new_group_core; simpl. rewrite !writes_app; simpl.
      rewrite !app_nil_r. apply HS.
    + unfold new_group_core; simpl. rewrite !categorized_app; simpl.
      rewrite !app_nil_r. apply HS.
    + unfold new_group_core; simpl. rewrite !categorized_app; simpl.
      rewrite !app_nil_r. apply HS.
Qed.

Lemma visit_volume_swept m V E b volume_tag g :
  Swept m V E b → groups_of m volume_tag = [g] →
  ∃ b', visit_volume tags0 (length V, volume_tag) b = (Return tt, b')
        ∧ Swept m (V ++ [moab.next_handle (core b)])
            (E ++ handle_sweep m [(moab.next_handle (core b), volume_tag)]) b'.
Proof.
  intros HS Hg. rewrite visit_volume_run. rewrite (swept_model _ _ _ _ HS), Hg. simpl.
  pose proof (new_volume_swept _ _ _ _ HS) as HS1.
  pose proof (grouped_swept _ _ _ _ g (gmsh.get_physical_name 3 g m)
                (moab.next_handle (core b)) HS1) as HS2. simpl in HS2.
  destruct (visit_surfaces_swept _ _ _ _ (moab.next_handle (core b))
              (surfaces_of m volume_tag) HS2) as (b' & Hrun & HS3).
  exists b'. split; [done|]. unfold handle_sweep; simpl. by rewrite app_nil_r.
Qed.

Lemma visit_volume_raises m V E b i volume_tag :
  Swept m V E b → length (groups_of m volume_tag) ≠ 1 →
  ∃ b', visit_volume tags0 (i, volume_tag) b
        = (Raise (ValueError (VolumeGroups volume_tag (moab.next_handle (core b))
                                (length (groups_of m volume_tag)))), b').
Proof.
  intros HS Hg. rewrite visit_volume_run. rewrite (swept_model _ _ _ _ HS). simpl.
  destruct (groups_of m volume_tag) as [|g [|g' l]]; [by eexists|done|by eexists].
Qed.

Lemma visit_volumes_swept m tags :
  Forall (λ v, length (groups_of m v) = 1) tags →
  ∀ V E b, Swept m V E b →
  ∃ b' V', for_each (enumerate_from (length V) tags) (visit_volume tags0) b
           = (Return tt, b')
         ∧ length V' = length tags
         ∧ Swept m (V ++ V') (E ++ handle_sweep m (zip V' tags)) b'.
Proof.
  induction 1 as [|volume_tag tags Hg _ IH]; intros V E b HS;
    cbn [for_each enumerate_from].
  - exists b, []. split_and!; [done..|]. by rewrite !app_nil_r.
  - destruct (groups_of m volume_tag) as [|g [|??]] eqn:Hgs; try done.
    destruct (visit_volume_swept _ _ _ _ _ _ HS Hgs) as (b1 & Hrun & HS1).
    destruct (IH _ _ _ HS1) as (b2 & V2 & Hrun2 & Hlen & HS2).
    exists b2, (moab.next_handle (core b) :: V2). split_and!.
    + unfold bind. rewrite Hrun. rewrite length_app in Hrun2; simpl in Hrun2.
      by replace (length V + 1) with (S (length V)) in Hrun2 by lia.
    + simpl. by rewrite Hlen.
    + rewrite <- !app_assoc in HS2. simpl in HS2. 
      unfold handle_sweep in *. simpl in *. by rewrite app_nil_r in HS2.
Qed.

Lemma visit_volumes_raise m tags :
  Exists (λ v, length (groups_of m v) ≠ 1) tags →
  ∀ V E b, Swept m V E b →
  ∃ volume_tag v b',
    for_each (enumerate_from (length V) tags) (visit_volume tags0) b
    = (Raise (ValueError (VolumeGroups volume_tag v
                            (length (groups_of m volume_tag)))), b')
    ∧ volume_tag ∈ tags ∧ length (groups_of m volume_tag) ≠ 1.
Proof.
  induction tags as [|volume_tag tags IH]; intros Hex V E b HS; [by inv Hex|].
  cbn [for_each enumerate_from]. destruct (decide (length (groups_of m volume_tag) = 1)) as [Hone|Hbad].
  - apply Exists_cons in Hex as [Hbad|Hex]; [done|].
    destruct (groups_of m volume_tag) as [|g [|??]] eqn:Hgs; try done.
    destruct (visit_volume_swept _ _ _ _ _ _ HS Hgs) as (b1 & Hrun & HS1).
    destruct (IH Hex _ _ _ HS1) as (vt & v & b2 & Hrun2 & Hin & Hlen).
    exists vt, v, b2. split_and!; [|by right|done].
    unfold bind. rewrite Hrun. rewrite length_app in Hrun2; simpl in Hrun2.
    by replace (length V + 1) with (S (length V)) in Hrun2 by lia.
  - destruct (visit_volume_raises _ _ _ _ (length V) _ HS Hbad) as (b1 & Hrun).
    exists volume_tag, (moab.next_handle (core b)), b1. split_and!; [|by left|done].
    unfold bind. by rewrite Hrun.
Qed.

(** ** Entering the mesh, and the whole build *)

Lemma Mesh_enter_opened mesh w m :
  msh_files w !! _mesh_filename mesh = Some m →
  Mesh_enter mesh w = (Return mesh, entered w m).
Proof.
  intros Hf. unfold Mesh_enter, entered, gmsh_open, gmsh.is_initialized; run_py.
  destruct (gmsh.initialized (session w)); simpl; by rewrite Hf.
Qed.

Lemma Mesh_enter_missing mesh w :
  msh_files w !! _mesh_filename mesh = None →
  Mesh_enter mesh w
  = (Raise (GmshError (CannotOpen (_mesh_filename mesh))), stuck w).
Proof.
  intros Hf. unfold Mesh_enter, stuck, gmsh_open, gmsh.is_initialized; run_py.
  destruct (gmsh.initialized (session w)); simpl; by rewrite Hf.
Qed.

Lemma make_from_mesh_opened mesh w m :
  msh_files w !! _mesh_filename mesh = Some m →
  make_from_mesh mesh w
  = let '(r, b) :=
      build_body tags0 {| world := entered w m; core := moab.new;
                          known_surfaces := ∅; known_groups := ∅ |} in
    (r, on_session gmsh.finalize (world b)).
Proof.
  intros Hf. unfold make_from_mesh, with_, in_world; simpl.
  rewrite (Mesh_enter_opened _ _ _ Hf); simpl.
  destruct (build_body _ _) as [r b]; simpl. done.
Qed.

Lemma make_from_mesh_missing mesh w :
  msh_files w !! _mesh_filename mesh = None →
  make_from_mesh mesh w
  = (Raise (GmshError (CannotOpen (_mesh_filename mesh))), stuck w).
Proof.
  intros Hf. unfold make_from_mesh, with_, in_world; simpl.
  by rewrite (Mesh_enter_missing _ _ Hf).
Qed.

Lemma swept_start w m :
  Swept m [] [] {| world := entered w m; core := moab.new;
                   known_surfaces := ∅; known_groups := ∅ |}.
Proof.
  split; simpl; try done.
  - intros e He. by apply elem_of_nil in He.
  - intros p c. unfold moab.get_child_meshsets, moab.get_parent_meshsets; simpl.
    rewrite !lookup_empty; simpl. by rewrite !elem_of_nil.
  - intros s _. apply not_elem_of_nil.
Qed.

Lemma build_body_run b :
  build_body tags0 b
  = match for_each (enumerate (volume_tags (gmsh.model (session (world b)))))
            (visit_volume tags0) b with
    | (Return _, b') =>
        (Return {| _core := sealed (core b') |},
         {| world := world b'; core := sealed (core b');
            known_surfaces := known_surfaces b'; known_groups := known_groups b' |})
    | (Raise e, b') => (Raise e, b')
    end.
Proof.
  unfold build_body; run_py. unfold volume_tags.
  destruct (for_each _ _ b) as [[[]|e] b']; simpl; done.
Qed.

(** A build that returns went through the whole sweep. *)
Lemma make_from_mesh_returns mesh w m model w' :
  msh_files w !! _mesh_filename mesh = Some m →
  make_from_mesh mesh w = (Return model, w') →
  well_grouped m ∧
  ∃ b V, Swept m V (handle_sweep m (zip V (volume_tags m))) b
         ∧ length V = length (volume_tags m)
         ∧ _core model = sealed (core b)
         ∧ w' = on_session gmsh.finalize (world b).
Proof.
  intros Hf. rewrite (make_from_mesh_opened _ _ _ Hf), build_body_run; simpl.
  pose proof (swept_start w m) as HS0.
  destruct (decide (well_grouped m)) as [Hwg|Hbad].
  - destruct (visit_volumes_swept m _ Hwg _ _ _ HS0) as (b' & V' & Hrun & Hlen & HS).
    simpl in Hrun. unfold enumerate. rewrite Hrun; simpl.
    intros [= <- <-]. split; [done|]. by exists b', V'.
  - apply not_Forall_Exists in Hbad; [|apply _].
    destruct (visit_volumes_raise m _ Hbad _ _ _ HS0) as (vt & v & b' & Hrun & _).
    simpl in Hrun. unfold enumerate. rewrite Hrun; simpl. done.
Qed.

Lemma make_from_mesh_well_grouped mesh w m :
  msh_files w !! _mesh_filename mesh = Some m → well_grouped m →
  ∃ model w', make_from_mesh mesh w = (Return model, w').
Proof.
  intros Hf Hwg. rewrite (make_from_mesh_opened _ _ _ Hf), build_body_run; simpl.
  destruct (visit_volumes_swept m _ Hwg _ _ _ (swept_start w m))
    as (b' & V' & Hrun & Hlen & HS).
  simpl in Hrun. unfold enumerate. rewrite Hrun; simpl. by eexists _, _.
Qed.

Lemma make_from_mesh_ill_grouped mesh w m :
  msh_files w !! _mesh_filename mesh = Some m → ¬ well_grouped m →
  ∃ volume_tag v w',
    make_from_mesh mesh w
    = (Raise (ValueError (VolumeGroups volume_tag v
                            (length (groups_of m volume_tag)))), w')
    ∧ volume_tag ∈ volume_tags m ∧ length (groups_of m volume_tag) ≠ 1.
Proof.
  intros Hf Hbad. rewrite (make_from_mesh_opened _ _ _ Hf), build_body_run; simpl.
  apply not_Forall_Exists in Hbad; [|apply _].
  destruct (visit_volumes_raise m _ Hbad _ _ _ (swept_start w m))
    as (vt & v & b' & Hrun & Hin & Hlen).
  simpl in Hrun. unfold enumerate. rewrite Hrun; simpl. by eexists _, _, _.
Qed.

(** ** The sweep by position and the sweep by handle *)


Lemma sweep_from_cons m k volume_tag tags :
  sweep_from m k (volume_tag :: tags)
  = ((λ s, (k, s)) <$> surfaces_of m volume_tag) ++ sweep_from m (S k) tags.
Proof. done. Qed.

Lemma handle_sweep_cons m v volume_tag vs :
  handle_sweep m ((v, volume_tag) :: vs)
  = ((λ s, (v, s)) <$> surfaces_of m volume_tag) ++ handle_sweep m vs.
Proof. done. Qed.



Lemma handle_sweep_tags m tags :
  ∀ k V', length V' = length tags →
  (handle_sweep m (zip V' tags)).*2 = (sweep_from m k tags).*2.
Proof.
  induction tags as [|volume_tag tags IH]; intros k [|v V'] Hlen; try done.
  simpl in Hlen. simpl zip.
  rewrite handle_sweep_cons, sweep_from_cons, !fmap_app.
  rewrite (IH (S k) V') by lia. f_equal.
  rewrite <- !list_fmap_compose. by apply list_fmap_ext.
Qed.






(** ** The finished model *)

Lemma sealed_tag_other c t h :
  h ≠ moab.next_handle c →
  moab.tag_get_data t h (sealed c) = moab.tag_get_data t h c.
Proof.
  intros Hh. unfold sealed, moab.tag_get_data; simpl.
  by rewrite tag_lookup_insert_other.
Qed.

Lemma sealed_sets_of_dimension m V E b d :
  Swept m V E b →
  sets_of_dimension (sealed (core b)) d = sets_of_dimension (core b) d.
Proof.
  intros HS.
  rewrite (sets_of_dimension_grow _ _ _ (core b) _
             [(moab.MBENTITYSET, moab.next_handle (core b))]); [|done|].
  - rewrite filter_cons_False, filter_nil, app_nil_r; [done|].
    intros [_ Ht]; simpl in Ht. unfold sealed, moab.tag_get_data in Ht; simpl in Ht.
    rewrite lookup_insert_ne in Ht by congruence.
    apply (swept_tagged _ _ _ _ HS moab.GEOM_DIMENSION) in Ht. lia.
  - intros e He. apply sealed_tag_other.
    apply (swept_entities _ _ _ _ HS) in He. lia.
Qed.

Lemma make_from_mesh_built mesh w m model w' :
  msh_files w !! _mesh_filename mesh = Some m →
  make_from_mesh mesh w = (Return model, w') →
  ∃ b V, Built m model b V.
Proof.
  intros Hf Hrun.
  destruct (make_from_mesh_returns _ _ _ _ _ Hf Hrun) as (_ & b & V & HS & Hlen & Hc & _).
  exists b, V. split; try done.
  - unfold volumes, _get_entities_of_geom_dimension. rewrite Hc.
    rewrite (sealed_sets_of_dimension _ _ _ _ _ HS). apply HS.
  - unfold surfaces, _get_entities_of_geom_dimension. rewrite Hc.
    rewrite (sealed_sets_of_dimension _ _ _ _ _ HS), (swept_surfaces _ _ _ _ HS).
    by rewrite (handle_sweep_tags m _ 0 V Hlen).
Qed.

Lemma make_from_mesh_file mesh w model w' :
  make_from_mesh mesh w = (Return model, w') →
  ∃ m, msh_files w !! _mesh_filename mesh = Some m.
Proof.
  destruct (msh_files w !! _mesh_filename mesh) as [m|] eqn:Hf; [by exists m|].
  by rewrite (make_from_mesh_missing _ _ Hf).
Qed.


Lemma built_tag m model b V t h :
  Built m model b V → (h < moab.next_handle (core b))%N →
  moab.tag_get_data t h (_core model) = moab.tag_get_data t h (core b).
Proof.
  intros HB Hh. rewrite (built_core _ _ _ _ HB). apply sealed_tag_other. lia.
Qed.




(** C5: in the model a build returns, a surface is among the adjacent
    surfaces of a volume exactly when the volume is among the adjacent
    volumes of the surface. *)
Theorem adjacency_mutually_consistent mesh w model w' :
  make_from_mesh mesh w = (Return model, w') →
  ∀ S V, S ∈ adjacent_surfaces model V ↔ V ∈ adjacent_volumes model S.
Proof.
  intros Hrun S V. destruct (make_from_mesh_file _ _ _ _ Hrun) as (m & Hf).
  destruct (make_from_mesh_built _ _ _ _ _ Hf Hrun) as (b & V' & HB).
  unfold adjacent_surfaces, adjacent_volumes. rewrite (built_core _ _ _ _ HB).
  apply (swept_linked _ _ _ _ (built_swept _ _ _ _ HB)).
Qed.

Lemma adjacency_mutually_consistent_two_cells :
  6%N ∈ adjacent_surfaces (built_from "two_cells.msh") 9
  ↔ 9%N ∈ adjacent_volumes (built_from "two_cells.msh") 6.
Proof.
  apply (adjacency_mutually_consistent (mesh_of "two_cells.msh") disk
           (built_from "two_cells.msh")
           (make_from_mesh (mesh_of "two_cells.msh") disk).2).
  vm_compute. reflexivity.
Defined.

(** C3: once the mesh file is open, the build raises exactly when some
    volume is in a number of physical groups other than one; what it raises
    is then the [ValueError] about such a volume, and when every volume is
    in exactly one group the build returns a model. *)
Theorem build_raises_iff_ill_grouped mesh w m :
  msh_files w !! _mesh_filename mesh = Some m →
  ((∃ e w', make_from_mesh mesh w = (Raise e, w'))
     ↔ Exists (λ v, length (groups_of m v) ≠ 1) (volume_tags m))
  ∧ (∀ e w', make_from_mesh mesh w = (Raise e, w') →
       ∃ volume_tag v,
         e = ValueError (VolumeGroups volume_tag v
                           (length (groups_of m volume_tag)))
         ∧ volume_tag ∈ volume_tags m
         ∧ length (groups_of m volume_tag) ≠ 1)
  ∧ (well_grouped m → ∃ model w', make_from_mesh mesh w = (Return model, w')).
Proof.
  intros Hf.
  assert (∀ e w', make_from_mesh mesh w = (Raise e, w') →
       ∃ volume_tag v,
         e = ValueError (VolumeGroups volume_tag v
                           (length (groups_of m volume_tag)))
         ∧ volume_tag ∈ volume_tags m
         ∧ length (groups_of m volume_tag) ≠ 1) as Hraise.
  { intros e w' Hrun. destruct (decide (well_grouped m)) as [Hwg|Hbad].
    - destruct (make_from_mesh_well_grouped _ _ _ Hf Hwg) as (model & w'' & Hok).
      congruence.
    - destruct (make_from_mesh_ill_grouped _ _ _ Hf Hbad)
        as (vt & v & w'' & Hrun' & Hin & Hlen).
      exists vt, v. rewrite Hrun in Hrun'. by injection Hrun' as -> _. }
  split_and!; [split| done | by apply make_from_mesh_well_grouped].
  - intros (e & w' & Hrun).
    destruct (Hraise _ _ Hrun) as (vt & v & _ & Hin & Hlen).
    apply Exists_exists. by exists vt.
  - intros Hex. apply Exists_not_Forall in Hex.
    destruct (make_from_mesh_ill_grouped _ _ _ Hf Hex) as (vt & v & w' & Hrun & _).
    by eexists _, _.
Qed.

Lemma build_raises_iff_ill_grouped_ungrouped :
  ((∃ e w', make_from_mesh (mesh_of "ungrouped.msh") disk = (Raise e, w'))
     ↔ Exists (λ v, length (groups_of ungrouped v) ≠ 1) (volume_tags ungrouped))
  ∧ (∀ e w', make_from_mesh (mesh_of "ungrouped.msh") disk = (Raise e, w') →
       ∃ volume_tag v,
         e = ValueError (VolumeGroups volume_tag v
                           (length (groups_of ungrouped volume_tag)))
         ∧ volume_tag ∈ volume_tags ungrouped
         ∧ length (groups_of ungrouped volume_tag) ≠ 1)
  ∧ (well_grouped ungrouped →
       ∃ model w', make_from_mesh (mesh_of "ungrouped.msh") disk = (Return model, w')).
Proof.
  apply (build_raises_iff_ill_grouped (mesh_of "ungrouped.msh") disk ungrouped).
  vm_compute. reflexivity.
Defined.

(** C8: a build that returns ends by creating one more set, the file set;
    these are its last three calls on the store.  The file set is the only
    entity with a [faceting_tol], whose value is the constant
    [faceting_tol_value] whatever the mesh, and its members are all the
    entities the store held before it. *)
Theorem file_set_holds_all_entities mesh w model w' :
  make_from_mesh mesh w = (Return model, w') →
  ∃ file_set before ops,
    moab.entities (_core model) = before ++ [(moab.MBENTITYSET, file_set)]
    ∧ moab.journal (_core model)
      = ops ++ [moab.OpCreateMeshset file_set;
                moab.OpTagSet moab.FACETING_TOL file_set
                  (moab.TDouble faceting_tol_value);
                moab.OpAddEntities file_set before.*2]
    ∧ categorized "Volume" ops = volumes model
    ∧ writes moab.FACETING_TOL (moab.journal (_core model))
      = [(file_set, moab.TDouble faceting_tol_value)]
    ∧ (∀ h, moab.tag_get_data moab.FACETING_TOL h (_core model)
            = if decide (h = file_set)
              then Some (moab.TDouble faceting_tol_value) else None)
    ∧ moab.members file_set (_core model) = list_to_set before.*2.
Proof.
  intros Hrun. destruct (make_from_mesh_file _ _ _ _ Hrun) as (m & Hf).
  destruct (make_from_mesh_built _ _ _ _ _ Hf Hrun) as (b & V & HB).
  pose proof (built_swept _ _ _ _ HB) as HS.
  exists (moab.next_handle (core b)), (moab.entities (core b)),
    (moab.journal (core b)).
  rewrite (built_core _ _ _ _ HB), (built_volumes _ _ _ _ HB).
  split_and!.
  - done.
  - unfold sealed; simpl. unfold moab.get_entities_by_handle.
    rewrite decide_True by done. by rewrite <- !app_assoc.
  - apply HS.
  - unfold sealed; simpl. rewrite !writes_app; simpl.
    by rewrite (swept_tol_writes _ _ _ _ HS).
  - intros h. unfold sealed, moab.tag_get_data; simpl. rewrite lookup_insert.
    destruct (decide (h = moab.next_handle (core b))) as [->|Hne].
    + by rewrite decide_True.
    + rewrite decide_False by congruence. apply (swept_no_tol _ _ _ _ HS).
  - unfold sealed, moab.members; simpl. rewrite lookup_insert_eq; simpl.
    unfold moab.members; simpl.
    rewrite (swept_contents _ _ _ _ HS) by lia; simpl.
    unfold moab.get_entities_by_handle. rewrite decide_True by done.
    by rewrite (left_id_L ∅ (∪)).
Qed.

Lemma file_set_holds_all_entities_sphere :
  ∃ file_set before ops,
    moab.entities (_core (built_from "sphere.msh"))
      = before ++ [(moab.MBENTITYSET, file_set)]
    ∧ moab.journal (_core (built_from "sphere.msh"))
      = ops ++ [moab.OpCreateMeshset file_set;
                moab.OpTagSet moab.FACETING_TOL file_set
                  (moab.TDouble faceting_tol_value);
                moab.OpAddEntities file_set before.*2]
    ∧ categorized "Volume" ops = volumes (built_from "sphere.msh")
    ∧ writes moab.FACETING_TOL (moab.journal (_core (built_from "sphere.msh")))
      = [(file_set, moab.TDouble faceting_tol_value)]
    ∧ (∀ h, moab.tag_get_data moab.FACETING_TOL h (_core (built_from "sphere.msh"))
            = if decide (h = file_set)
              then Some (moab.TDouble faceting_tol_value) else None)
    ∧ moab.members file_set (_core (built_from "sphere.msh")) = list_to_set before.*2.
Proof.
  apply (file_set_holds_all_entities (mesh_of "sphere.msh") disk
           (built_from "sphere.msh") (make_from_mesh (mesh_of "sphere.msh") disk).2).
  vm_compute. reflexivity.
Defined.










(** ** Loading the facets *)






(** ** What the loop over surfaces leaves alone *)

Lemma kept_refl b : Kept b b [].
Proof. split; try done. by rewrite app_nil_r. Qed.

Lemma kept_trans b1 b2 b3 ops1 ops2 :
  Kept b1 b2 ops1 → Kept b2 b3 ops2 → Kept b1 b3 (ops1 ++ ops2).
Proof.
  intros H1 H2. split.
  - by rewrite (kept_journal _ _ _ H2), (kept_journal _ _ _ H1), app_assoc.
  - by rewrite (kept_groups _ _ _ H2), (kept_groups _ _ _ H1).
  - by rewrite (kept_model _ _ _ H2), (kept_model _ _ _ H1).
  - pose proof (kept_next _ _ _ H1). pose proof (kept_next _ _ _ H2). lia.
  - intros t h Ht Hh. rewrite (kept_tags _ _ _ H2), (kept_tags _ _ _ H1); [done..|].
    pose proof (kept_next _ _ _ H1). lia.
  - intros h x Hx. by apply (kept_members _ _ _ H2), (kept_members _ _ _ H1).
  - by rewrite categorized_app, (kept_no_group _ _ _ H1), (kept_no_group _ _ _ H2).
  - by rewrite writes_app, (kept_no_name _ _ _ H1), (kept_no_name _ _ _ H2).
Qed.

Lemma visit_surface_kept v s b :
  ∃ b' ops, visit_surface tags0 v s b = (Return tt, b') ∧ Kept b b' ops.
Proof.
  destruct (known_surfaces b !! s) as [surface|] eqn:Hk.
  - eexists _, _. split; [by apply visit_surface_seen|].
    split; simpl; try done.
    + unfold seen_surface_core; simpl. by rewrite <- app_assoc.
    + intros t h Ht _. apply seen_surface_tag_other. congruence.
    + reflexivity.
    + reflexivity.
  - eexists _, _. split; [by apply visit_surface_new|].
    split; simpl; try done.
    + unfold new_surface_core; simpl. by rewrite <- !app_assoc.
    + unfold new_surface_core; simpl. lia.
    + intros t h _ Hh. apply new_surface_tag_other. lia.
    + intros h x. unfold new_surface_core, moab.members; simpl.
      destruct (decide (moab.next_handle (core b) = h)) as [<-|Hne].
      * rewrite lookup_insert_eq; simpl. unfold moab.members; simpl. set_solver.
      * by rewrite lookup_insert_ne.
    + reflexivity.
    + reflexivity.
Qed.

Lemma visit_surfaces_kept v ss :
  ∀ b, ∃ b' ops,
    for_each ss (visit_surface tags0 v) b = (Return tt, b') ∧ Kept b b' ops.
Proof.
  induction ss as [|s ss IH]; intros b.
  - exists b, []. split; [done|apply kept_refl].
  - destruct (visit_surface_kept v s b) as (b1 & ops1 & Hrun1 & HK1).
    destruct (IH b1) as (b2 & ops2 & Hrun2 & HK2).
    exists b2, (ops1 ++ ops2). split; [|by eapply kept_trans].
    simpl. unfold bind. by rewrite Hrun1.
Qed.

(** C7, as the code has it: a volume in exactly one physical group [g]
    is put into the set of [g].  If [known_groups] has a set for [g], that
    set is used and nothing is created for the group; otherwise a set is
    created with category "Group", with the name the mesh gives the
    physical group, as it is (no "mat:" is added), and with [global_id]
    [g], and [known_groups] records it.  The surfaces visited afterwards
    create no group and change none of this. *)
Theorem volume_joins_the_set_of_its_group b i volume_tag g :
  let m := gmsh.model (session (world b)) in
  let v := moab.next_handle (core b) in
  let known := known_groups b !! g in
  let group_set := default (N.succ v) known in
  let name := gmsh.get_physical_name 3 g m in
  groups_of m volume_tag = [g] →
  ∃ b' ops,
    visit_volume _get_moab_tag_handles (i, volume_tag) b = (Return tt, b')
    ∧ moab.journal (core b')
      = moab.journal (core b)
        ++ [moab.OpCreateMeshset v;
            moab.OpTagSet moab.GLOBAL_ID v (moab.TInt (Z.of_nat i));
            moab.OpTagSet moab.GEOM_DIMENSION v (moab.TInt 3);
            moab.OpTagSet moab.CATEGORY v (moab.TOpaque "Volume")]
        ++ group_ops known group_set g name
        ++ [moab.OpAddEntity group_set v]
        ++ ops
    ∧ categorized "Group" ops = []
    ∧ writes moab.NAME ops = []
    ∧ known_groups b' = <[g := group_set]> (known_groups b)
    ∧ v ∈ moab.members group_set (core b')
    ∧ (known = None →
         moab.tag_get_data moab.CATEGORY group_set (core b')
           = Some (moab.TOpaque "Group")
         ∧ moab.tag_get_data moab.NAME group_set (core b')
           = Some (moab.TOpaque name)
         ∧ moab.tag_get_data moab.GLOBAL_ID group_set (core b')
           = Some (moab.TInt g)).
Proof.
  intros m v known group_set name Hg.
  rewrite visit_volume_run. fold m v. rewrite Hg.
  set (cg := grouped g (gmsh.get_physical_name 3 g m) v
               (new_volume_core i (core b)) (known_groups b)).
  destruct (visit_surfaces_kept v (surfaces_of m volume_tag)
              {| world := world b; core := cg.1;
                 known_surfaces := known_surfaces b; known_groups := cg.2 |})
    as (b' & ops & Hrun & HK).
  exists b', ops. split; [done|].
  pose proof (kept_journal _ _ _ HK) as Hj. simpl in Hj.
  pose proof (kept_groups _ _ _ HK) as Hkg. simpl in Hkg.
  pose proof (kept_members _ _ _ HK) as Hmem. simpl in Hmem.
  pose proof (kept_tags _ _ _ HK) as Htags. simpl in Htags.
  split_and!; [|apply HK|apply HK|..].
  - rewrite Hj. unfold cg, grouped, group_set, known, name.
    destruct (known_groups b !! g) as [gs|]; simpl;
      unfold new_volume_core; simpl; by rewrite <- !app_assoc.
  - rewrite Hkg. unfold cg, grouped, group_set, known.
    destruct (known_groups b !! g) as [gs|] eqn:Hk; simpl; [|done].
    by rewrite insert_id.
  - apply Hmem. unfold cg, grouped, group_set, known.
    destruct (known_groups b !! g) as [gs|]; simpl;
      unfold moab.members; simpl; rewrite lookup_insert_eq; simpl; set_solver.
  - intros Hnone. unfold group_set. rewrite Hnone; simpl.
    unfold cg, grouped in Htags. unfold known in Hnone. rewrite Hnone in Htags.
    simpl in Htags. fold v in Htags.
    rewrite !Htags by (done || unfold new_group_core; simpl; lia).
    unfold new_group_core, new_volume_core, moab.tag_get_data; simpl. fold v.
    split_and!.
    + by rewrite !lookup_insert_ne, lookup_insert_eq by congruence.
    + by rewrite !lookup_insert_ne, lookup_insert_eq by congruence.
    + by rewrite lookup_insert_eq.
Qed.

Lemma volume_joins_the_set_of_its_group_two_cells :
  let b := after_first_volume two_cells in
  let m := gmsh.model (session (world b)) in
  let v := moab.next_handle (core b) in
  let known := known_groups b !! 2%Z in
  let group_set := default (N.succ v) known in
  let name := gmsh.get_physical_name 3 2 m in
  ∃ b' ops,
    visit_volume _get_moab_tag_handles (1, 2%Z) b = (Return tt, b')
    ∧ moab.journal (core b')
      = moab.journal (core b)
        ++ [moab.OpCreateMeshset v;
            moab.OpTagSet moab.GLOBAL_ID v (moab.TInt (Z.of_nat 1));
            moab.OpTagSet moab.GEOM_DIMENSION v (moab.TInt 3);
            moab.OpTagSet moab.CATEGORY v (moab.TOpaque "Volume")]
        ++ group_ops known group_set 2 name
        ++ [moab.OpAddEntity group_set v]
        ++ ops
    ∧ categorized "Group" ops = []
    ∧ writes moab.NAME ops = []
    ∧ known_groups b' = <[2%Z := group_set]> (known_groups b)
    ∧ v ∈ moab.members group_set (core b')
    ∧ (known = None →
         moab.tag_get_data moab.CATEGORY group_set (core b')
           = Some (moab.TOpaque "Group")
         ∧ moab.tag_get_data moab.NAME group_set (core b')
           = Some (moab.TOpaque name)
         ∧ moab.tag_get_data moab.GLOBAL_ID group_set (core b')
           = Some (moab.TInt 2)).
Proof.
  apply (volume_joins_the_set_of_its_group (after_first_volume two_cells) 1 2 2).
  vm_compute. reflexivity.
Defined.

(** C7 as stated fails: the physical group of the block is named "steel",
    and the Group entity of the model built from it (handle 2) is named
    "steel", which is not "mat:" followed by a label. *)
Lemma group_name_is_the_physical_name :
  gmsh.get_physical_name 3 1 steel_block = "steel"
  ∧ (make_from_mesh (mesh_of "steel_block.msh") disk).1
    = Return (built_from "steel_block.msh")
  ∧ moab.tag_get_data moab.CATEGORY 2 (_core (built_from "steel_block.msh"))
    = Some (moab.TOpaque "Group")
  ∧ moab.tag_get_data moab.NAME 2 (_core (built_from "steel_block.msh"))
    = Some (moab.TOpaque "steel")
  ∧ ∀ label, "steel" ≠ "mat:" +:+ label.
Proof.
  split_and!; [vm_compute; reflexivity..|]. intros label. simpl. discriminate.
Qed.

(** ** The session *)

(** C9 fails on the code: [gmsh.open] raises on "missing.msh" inside
    [Mesh.__enter__], after [gmsh.initialize()]; [__exit__] does not run,
    and each of the three operations leaves the engine initialized. *)
Lemma failed_open_leaves_gmsh_initialized :
  gmsh.is_initialized (session disk) = false
  ∧ msh_files disk !! "missing.msh" = None
  ∧ (make_from_mesh (mesh_of "missing.msh") disk).1
    = Raise (GmshError (CannotOpen "missing.msh"))
  ∧ gmsh.is_initialized
      (session (make_from_mesh (mesh_of "missing.msh") disk).2) = true
  ∧ (Mesh_write (mesh_of "missing.msh") "out.msh" true disk).1
    = Raise (GmshError (CannotOpen "missing.msh"))
  ∧ gmsh.is_initialized
      (session (Mesh_write (mesh_of "missing.msh") "out.msh" true disk).2) = true
  ∧ (Mesh_render (mesh_of "missing.msh") None (0, 0, 0)%Q 0 true "tmp.png" disk).1
    = Raise (GmshError (CannotOpen "missing.msh"))
  ∧ gmsh.is_initialized
      (session (Mesh_render (mesh_of "missing.msh") None (0, 0, 0)%Q 0 true
                  "tmp.png" disk).2) = true.
Proof. vm_compute. repeat split; reflexivity. Qed.

(** Once the context is entered, [with] ends by running [__exit__]. *)
Lemma with_runs_exit {S A B} (enter : M S A) (exit : M S unit)
    (body : A → M S B) s a s1 r s' :
  enter s = (Return a, s1) →
  with_ enter exit body s = (r, s') →
  ∃ r1 s2 r2, body a s1 = (r1, s2) ∧ exit s2 = (r2, s').
Proof.
  intros He. unfold with_. rewrite He.
  destruct (body a s1) as [r1 s2]. destruct (exit s2) as [[[]|e] s3] eqn:Hx;
    intros [= <- <-]; by eexists _, _, _.
Qed.

Lemma Mesh_exit_finalizes mesh w r w' :
  Mesh_exit mesh w = (r, w') → gmsh.is_initialized (session w') = false.
Proof. by intros [= <- <-]. Qed.

(** The true part of C9: once [Mesh.__enter__] has returned, each
    operation finalizes gmsh however its body ends. *)
Lemma released_once_entered mesh w m :
  msh_files w !! _mesh_filename mesh = Some m →
  (∀ r w', make_from_mesh mesh w = (r, w') →
           gmsh.is_initialized (session w') = false)
  ∧ (∀ filename save_all r w',
       Mesh_write mesh filename save_all w = (r, w') →
       gmsh.is_initialized (session w') = false)
  ∧ (∀ output rotation normals clipping temp r w',
       Mesh_render mesh output rotation normals clipping temp w = (r, w') →
       gmsh.is_initialized (session w') = false).
Proof.
  intros Hf. pose proof (Mesh_enter_opened _ _ _ Hf) as He. split_and!.
  - intros r w'. rewrite (make_from_mesh_opened _ _ _ Hf).
    destruct (build_body _ _) as [r1 b1]. by intros [= <- <-].
  - intros filename save_all r w' Hrun.
    destruct (with_runs_exit _ _ _ _ _ _ _ _ He Hrun) as (r1 & w2 & r2 & _ & Hx).
    by eapply Mesh_exit_finalizes.
  - intros output rotation normals clipping temp r w' Hrun.
    destruct (with_runs_exit _ _ _ _ _ _ _ _ He Hrun) as (r1 & w2 & r2 & _ & Hx).
    by eapply Mesh_exit_finalizes.
Qed.

Lemma released_once_entered_sphere :
  (∀ r w', make_from_mesh (mesh_of "sphere.msh") disk = (r, w') →
           gmsh.is_initialized (session w') = false)
  ∧ (∀ filename save_all r w',
       Mesh_write (mesh_of "sphere.msh") filename save_all disk = (r, w') →
       gmsh.is_initialized (session w') = false)
  ∧ (∀ output rotation normals clipping temp r w',
       Mesh_render (mesh_of "sphere.msh") output rotation normals clipping temp disk
       = (r, w') →
       gmsh.is_initialized (session w') = false).
Proof.
  apply (released_once_entered (mesh_of "sphere.msh") disk sphere).
  vm_compute. reflexivity.
Defined.

(** [mesh_geometry] opens a file it has just made, so it always gets past
    [Mesh.__enter__], and leaves gmsh finalized whatever the OCC kernel and
    the mesher do and however it ends. *)
Lemma mesh_geometry_releases occ_import occ_synchronize mesh_generate
    geometry min_mesh_size max_mesh_size temp_name w r w' :
  mesh_geometry occ_import occ_synchronize mesh_generate geometry
    min_mesh_size max_mesh_size temp_name w = (r, w') →
  gmsh.is_initialized (session w') = false.
Proof.
  unfold mesh_geometry, Mesh_init. unfold bind at 1. unfold bind at 1.
  unfold new_temporary_file, modify, ret; simpl.
  set (mesh := {| _mesh_filename := temp_name |}).
  set (w1 := {| session := session w;
                msh_files := <[temp_name:=gmsh.empty_model]> (msh_files w);
                images := images w; logger_level := logger_level w |}).
  assert (msh_files w1 !! _mesh_filename mesh = Some gmsh.empty_model) as Hf
    by apply lookup_insert_eq.
  intros Hrun.
  destruct (with_runs_exit _ _ _ _ _ _ _ _ (Mesh_enter_opened _ _ _ Hf) Hrun)
    as (r1 & w2 & r2 & _ & Hx).
  by eapply Mesh_exit_finalizes.
Qed.


Lemma mesh_geometry_releases_ball :
  gmsh.is_initialized
    (session (mesh_geometry (λ address g, ([(3%Z, Z.of_N address)], g)) id (λ _, id)
                {| solids := [ball]; material_names := ["iron"] |} 50 50
                "tmp.msh" disk).2) = false.
Proof.
  apply (mesh_geometry_releases (λ address g, ([(3%Z, Z.of_N address)], g)) id (λ _, id)
           {| solids := [ball]; material_names := ["iron"] |} 50 50 "tmp.msh" disk
           (mesh_geometry (λ address g, ([(3%Z, Z.of_N address)], g)) id (λ _, id)
                {| solids := [ball]; material_names := ["iron"] |} 50 50
                "tmp.msh" disk).1).
  apply surjective_pairing.
Defined.

(** ** Geometry *)

(** C10: [Geometry(...)] raises a [ValueError] when the two lengths differ
    and otherwise holds the solids and the names as given; so do
    [import_step] and [import_brep] for the solids of the shape that was
    read, the names being checked against them. *)
Theorem geometry_checks_the_lengths
    (bd_import_step bd_import_brep : string → Outcome Shape)
    (solids : list Solid) (material_names : list string) :
  (length material_names ≠ length solids →
     Geometry_init solids material_names = Raise (ValueError MaterialNamesSolids))
  ∧ (length material_names = length solids →
       Geometry_init solids material_names
       = Return {| solids := solids; material_names := material_names |})
  ∧ (∀ filename shape, bd_import_step filename = Return shape →
       (length material_names ≠ length (solids_of shape) →
          import_step bd_import_step filename material_names
          = Raise (ValueError MaterialNamesFile))
       ∧ (length material_names = length (solids_of shape) →
            import_step bd_import_step filename material_names
            = Return {| solids := solids_of shape;
                        material_names := material_names |}))
  ∧ (∀ filename shape, bd_import_brep filename = Return shape →
       (length material_names ≠ length (solids_of shape) →
          import_brep bd_import_brep filename material_names
          = Raise (ValueError MaterialNamesFile))
       ∧ (length material_names = length (solids_of shape) →
            import_brep bd_import_brep filename material_names
            = Return {| solids := solids_of shape;
                        material_names := material_names |})).
Proof.
  split_and!.
  - intros Hne. unfold Geometry_init. by rewrite decide_True.
  - intros Heq. unfold Geometry_init. by rewrite decide_False by (by intros ?).
  - intros filename shape Hread. unfold import_step, Geometry_init. rewrite Hread.
    split; intros Hlen.
    + by rewrite decide_True.
    + by rewrite !decide_False by (by intros ?).
  - intros filename shape Hread. unfold import_brep, Geometry_init. rewrite Hread.
    split; intros Hlen.
    + by rewrite decide_True.
    + by rewrite !decide_False by (by intros ?).
Qed.

Lemma geometry_checks_the_lengths_ball :
  Geometry_init [ball] ["iron"]
  = Return {| solids := [ball]; material_names := ["iron"] |}
  ∧ Geometry_init [ball] ["iron"; "steel"]
    = Raise (ValueError MaterialNamesSolids)
  ∧ import_step ball_file "ball.step" ["iron"; "steel"]
    = Raise (ValueError MaterialNamesFile)
  ∧ import_brep ball_file "ball.brep" ["iron"]
    = Return {| solids := [ball]; material_names := ["iron"] |}.
Proof.
  split_and!.
  - apply (geometry_checks_the_lengths ball_file ball_file [ball] ["iron"]).
    reflexivity.
  - apply (geometry_checks_the_lengths ball_file ball_file [ball] ["iron"; "steel"]).
    simpl. lia.
  - apply (proj1 (proj2 (proj2
             (geometry_checks_the_lengths ball_file ball_file [ball]
                ["iron"; "steel"]))) "ball.step" {| solids_of := [ball] |});
      [reflexivity|simpl; lia].
  - apply (proj2 (proj2 (proj2
             (geometry_checks_the_lengths ball_file ball_file [ball] ["iron"])))
             "ball.brep" {| solids_of := [ball] |});
      reflexivity.
Defined.

(** ** Carrying a further invariant through the build *)

Section Carried.
Context (m : gmsh.Model).
(** [I VT E b]: a property of the build after the volumes [VT] (handle and
    mesh tag, in order) were created and the meetings [E] took place. *)
Context (I : list (N * Z) → list (N * Z) → Build → Prop).

Hypothesis carried_start : ∀ w,
  I [] [] {| world := entered w m; core := moab.new; known_surfaces := ∅;
             known_groups := ∅ |}.

Hypothesis carried_volume : ∀ VT E b volume_tag g,
  Swept m VT.*1 E b → I VT E b → groups_of m volume_tag = [g] →
  let v := moab.next_handle (core b) in
  let cg := grouped g (gmsh.get_physical_name 3 g m) v
              (new_volume_core (length VT) (core b)) (known_groups b) in
  I (VT ++ [(v, volume_tag)]) E
    {| world := world b; core := cg.1;
       known_surfaces := known_surfaces b; known_groups := cg.2 |}.

Hypothesis carried_surface : ∀ VT E b v s b',
  Swept m VT.*1 E b → I VT E b →
  visit_surface tags0 v s b = (Return tt, b') →
  I VT (E ++ [(v, s)]) b'.

Lemma carried_surfaces VT v ss :
  ∀ E b b', Swept m VT.*1 E b → I VT E b →
  for_each ss (visit_surface tags0 v) b = (Return tt, b') →
  I VT (E ++ ((λ s, (v, s)) <$> ss)) b'.
Proof using carried_surface.
  induction ss as [|s ss IH]; intros E b b' HS HI; simpl.
  - intros [= <-]. by rewrite app_nil_r.
  - destruct (visit_surface_swept _ _ _ _ v s HS) as (b1 & Hrun & HS1).
    unfold bind. rewrite Hrun. intros Hrest.
    rewrite cons_middle, app_assoc.
    apply (IH _ b1); [done| |done]. by eapply carried_surface.
Qed.

Lemma carried_volumes tags :
  Forall (λ v, length (groups_of m v) = 1) tags →
  ∀ VT b,
    Swept m VT.*1 (handle_sweep m VT) b → I VT (handle_sweep m VT) b →
    NoDup VT.*1 →
    ∃ b' VT',
      for_each (enumerate_from (length VT) tags) (visit_volume tags0) b
      = (Return tt, b')
      ∧ VT'.*2 = tags
      ∧ Swept m (VT ++ VT').*1 (handle_sweep m (VT ++ VT')) b'
      ∧ I (VT ++ VT') (handle_sweep m (VT ++ VT')) b'
      ∧ NoDup (VT ++ VT').*1.
Proof using carried_volume carried_surface.
  induction 1 as [|volume_tag tags Hg _ IH]; intros VT b HS HI Hnd;
    cbn [for_each enumerate_from].
  - exists b, []. rewrite !app_nil_r. by split_and!.
  - destruct (groups_of m volume_tag) as [|g [|??]] eqn:Hgs; try done.
    set (v := moab.next_handle (core b)).
    assert (length VT.*1 = length VT) as Hlen by apply length_fmap.
    pose proof (visit_volume_run (length VT) volume_tag b) as Hrun.
    cbv zeta in Hrun. rewrite (swept_model _ _ _ _ HS), Hgs in Hrun. fold v in Hrun.
    pose proof (new_volume_swept _ _ _ _ HS) as HS1.
    pose proof (grouped_swept _ _ _ _ g (gmsh.get_physical_name 3 g m) v HS1)
      as HS2. simpl in HS2. rewrite Hlen in HS2. fold v in HS2.
    pose proof (carried_volume _ _ _ _ _ HS HI Hgs) as HI2. simpl in HI2.
    fold v in HI2.
    assert ((VT ++ [(v, volume_tag)]).*1 = VT.*1 ++ [v]) as Hfst
      by by rewrite fmap_app.
    rewrite <- Hfst in HS2.
    destruct (visit_surfaces_swept _ _ _ _ v (surfaces_of m volume_tag) HS2)
      as (b1 & Hrun1 & HS3).
    pose proof (carried_surfaces _ _ _ _ _ _ HS2 HI2 Hrun1) as HI3.
    assert (handle_sweep m VT ++ ((λ s, (v, s)) <$> surfaces_of m volume_tag)
            = handle_sweep m (VT ++ [(v, volume_tag)])) as HE.
    { unfold handle_sweep. rewrite bind_app. simpl. by rewrite app_nil_r. }
    rewrite HE in HS3, HI3.
    assert (NoDup (VT ++ [(v, volume_tag)]).*1) as Hnd1.
    { rewrite Hfst. apply NoDup_app. split_and!; [done| |apply NoDup_singleton].
      intros h Hh ->%list_elem_of_singleton.
      apply (volumes_below _ _ _ _ _ HS) in Hh. unfold v in Hh. lia. }
    destruct (IH _ _ HS3 HI3 Hnd1) as (b2 & VT2 & Hrun2 & Htags & HS4 & HI4 & Hnd2).
    exists b2, ((v, volume_tag) :: VT2).
    replace (VT ++ (v, volume_tag) :: VT2)
      with ((VT ++ [(v, volume_tag)]) ++ VT2)
      by by rewrite <- app_assoc.
    split_and!; [|by rewrite fmap_cons, Htags|done..].
    unfold bind. rewrite Hrun, Hrun1.
    rewrite length_app in Hrun2; simpl in Hrun2.
    by replace (length VT + 1) with (S (length VT)) in Hrun2 by lia.
Qed.

(** A build that returns leaves the invariant, over the whole sweep. *)
Lemma make_from_mesh_carried mesh w model w' :
  msh_files w !! _mesh_filename mesh = Some m →
  make_from_mesh mesh w = (Return model, w') →
  ∃ b VT, VT.*2 = volume_tags m ∧ NoDup VT.*1
          ∧ Built m model b VT.*1
          ∧ I VT (handle_sweep m VT) b.
Proof using carried_start carried_volume carried_surface.
  intros Hf Hret.
  destruct (make_from_mesh_returns _ _ _ _ _ Hf Hret) as (Hwg & _).
  revert Hret. rewrite (make_from_mesh_opened _ _ _ Hf), build_body_run; simpl.
  destruct (carried_volumes _ Hwg [] _ (swept_start w m) (carried_start w))
    as (b' & VT & Hrun & Htags & HS & HI & Hnd); [apply NoDup_nil_2|].
  simpl in Hrun, HS, HI, Hnd. unfold enumerate. rewrite Hrun; simpl.
  intros [= <- <-]. exists b', VT. split_and!; [done..| |done].
  assert (zip VT.*1 (volume_tags m) = VT) as Hzip
    by (rewrite <- Htags; apply zip_fst_snd).
  assert (length VT.*1 = length (volume_tags m)) as Hlen
    by by rewrite <- Htags, !length_fmap.
  split; simpl.
  - by rewrite Hzip.
  - done.
  - done.
  - unfold volumes, _get_entities_of_geom_dimension; simpl.
    rewrite (sealed_sets_of_dimension _ _ _ _ _ HS). apply HS.
  - unfold surfaces, _get_entities_of_geom_dimension; simpl.
    rewrite (sealed_sets_of_dimension _ _ _ _ _ HS), (swept_surfaces _ _ _ _ HS).
    rewrite <- Hzip at 1. by rewrite (handle_sweep_tags m _ 0 _ Hlen).
Qed.
End Carried.

(** ** The parent and child links *)














Lemma elem_of_positions (VT : list (N * Z)) p volume_tag :
  (p, volume_tag) ∈ VT
  ↔ ∃ i, VT.*1 !! i = Some p ∧ VT.*2 !! i = Some volume_tag.
Proof.
  rewrite list_elem_of_lookup. split.
  - intros (i & Hi). exists i. by rewrite !list_lookup_fmap, Hi.
  - intros (i & H1 & H2). exists i. rewrite list_lookup_fmap in H1. rewrite list_lookup_fmap in H2.
    destruct (VT !! i) as [[p' vt']|]; simpl in *; congruence.
Qed.






(** ** The sets of the physical groups *)

Lemma members_add_entity G v c h :
  moab.members h (moab.add_entity G v c)
  = if decide (h = G) then moab.members G c ∪ {[v]} else moab.members h c.
Proof.
  unfold moab.members at 1; simpl. case_decide as Hh.
  - subst h. by rewrite lookup_insert_eq.
  - by rewrite lookup_insert_ne.
Qed.

Lemma assigned_start w m :
  Assigned m [] {| world := entered w m; core := moab.new;
                   known_surfaces := ∅; known_groups := ∅ |}.
Proof.
  split; simpl.
  - intros g G. by rewrite lookup_empty.
  - intros G. unfold moab.tag_get_data; simpl. by rewrite lookup_empty.
  - by intros h vt g ?%elem_of_nil.
  - intros g G. by rewrite lookup_empty.
Qed.

Lemma assigned_volume m VT E b i volume_tag g :
  Swept m VT.*1 E b → Assigned m VT b → groups_of m volume_tag = [g] →
  let v := moab.next_handle (core b) in
  let cg := grouped g (gmsh.get_physical_name 3 g m) v
              (new_volume_core i (core b)) (known_groups b) in
  Assigned m (VT ++ [(v, volume_tag)])
    {| world := world b; core := cg.1;
       known_surfaces := known_surfaces b; known_groups := cg.2 |}.
Proof.
  intros HS [Hknown Honly Hvols Hused] Hg v cg.
  assert (∀ h vt g', (h, vt) ∈ VT ++ [(v, volume_tag)] ∧ groups_of m vt = [g']
            ↔ ((h, vt) ∈ VT ∧ groups_of m vt = [g'])
              ∨ (h = v ∧ vt = volume_tag ∧ g' = g)) as Hsnoc.
  { intros h vt g'. rewrite elem_of_app, list_elem_of_singleton. split.
    - intros [[Hin|[= -> ->]] Hg']; [by left|right]. split_and!; congruence.
    - intros [[??]|(-> & -> & ->)]; split; auto. }
  assert (moab.tag_get_data moab.CATEGORY v (new_volume_core i (core b))
          = Some (moab.TOpaque "Volume")) as Hvol.
  { unfold new_volume_core, moab.tag_get_data; simpl. by rewrite lookup_insert_eq. }
  assert (∀ g' G', known_groups b !! g' = Some G' → (G' < v)%N) as Hlt
    by apply (swept_groups _ _ _ _ HS).
  unfold cg, grouped. destruct (known_groups b !! g) as [G|] eqn:HG; simpl.
  - (* the group is known *)
    split; simpl.
    + intros g' G' HG'. pose proof (Hlt _ _ HG') as HltG'.
      destruct (Hknown _ _ HG') as (Hcat & Hname & Hgid & Hmem).
      rewrite !tag_get_add_entity, !new_volume_tag_other by (simpl; unfold v in *; lia).
      split_and!; [done..|]. intros h. rewrite members_add_entity.
      change (moab.members ?x (new_volume_core i (core b)))
        with (moab.members x (core b)).
      case_decide as HGG.
      * subst G'. assert (g' = g) as ->.
        { destruct (Hknown _ _ HG) as (_ & _ & Hgid' & _). congruence. }
        rewrite elem_of_union, elem_of_singleton, Hmem. split.
        -- intros [(vt & ? & ?)| ->].
           ++ exists vt. apply Hsnoc. by left.
           ++ exists volume_tag. apply Hsnoc. by right.
        -- intros (vt & [[??]|(-> & -> & _)]%Hsnoc); [left; by exists vt|by right].
      * rewrite Hmem. split.
        -- intros (vt & ? & ?). exists vt. apply Hsnoc. by left.
        -- intros (vt & [[??]|(-> & -> & ->)]%Hsnoc); [by exists vt|].
           congruence.
    + intros h. rewrite tag_get_add_entity. intros Hcat.
      destruct (decide (h = v)) as [->|Hne]; [congruence|].
      rewrite new_volume_tag_other in Hcat by done. by apply Honly.
    + intros h vt g' Hin Hvt.
      destruct (proj1 (Hsnoc h vt g') (conj Hin Hvt)) as [[??]|(-> & -> & ->)].
      * by eapply Hvols.
      * by eexists.
    + intros g' G' HG'. destruct (Hused _ _ HG') as (h & vt & ? & ?).
      exists h, vt. apply Hsnoc. by left.
  - (* a new group *)
    split; simpl.
    + intros g' G'. destruct (decide (g' = g)) as [->|Hne].
      * rewrite lookup_insert_eq. intros [= <-].
        unfold new_group_core, moab.tag_get_data; simpl.
        split_and!.
        -- by rewrite !lookup_insert_ne, lookup_insert_eq by congruence.
        -- by rewrite !lookup_insert_ne, lookup_insert_eq by congruence.
        -- by rewrite lookup_insert_eq.
        -- intros h. rewrite members_add_entity, decide_True by done.
           unfold moab.members; simpl.
           rewrite (swept_contents _ _ _ _ HS) by (simpl; unfold v in *; lia). simpl.
           rewrite elem_of_union, elem_of_singleton. split.
           ++ intros [?%elem_of_empty| ->]; [done|].
              exists volume_tag. apply Hsnoc. by right.
           ++ intros (vt & [[Hin Hvt]|(-> & _)]%Hsnoc); [|by right].
              destruct (Hvols _ _ _ Hin Hvt) as [G' HG']. congruence.
      * rewrite lookup_insert_ne by done. intros HG'.
        pose proof (Hlt _ _ HG') as HltG'.
        destruct (Hknown _ _ HG') as (Hcat & Hname & Hgid & Hmem).
        rewrite !tag_get_add_entity, !new_group_tag_other by (simpl; unfold v in *; lia).
        rewrite !new_volume_tag_other by (simpl; unfold v in *; lia).
        split_and!; [done..|]. intros h.
        rewrite members_add_entity, decide_False by (simpl; unfold v in *; lia).
        change (moab.members ?x (new_group_core _ _ (new_volume_core i (core b))))
          with (moab.members x (core b)).
        rewrite Hmem. split.
        -- intros (vt & ? & ?). exists vt. apply Hsnoc. by left.
        -- intros (vt & [[??]|(-> & -> & ->)]%Hsnoc); [by exists vt|done].
    + intros h. rewrite tag_get_add_entity. intros Hcat.
      destruct (decide (h = N.succ v)) as [->|Hne1]; [exists g; by rewrite lookup_insert_eq|].
      rewrite new_group_tag_other in Hcat by done.
      destruct (decide (h = v)) as [->|Hne2]; [congruence|].
      rewrite new_volume_tag_other in Hcat by done.
      destruct (Honly _ Hcat) as (g' & HG'). exists g'.
      rewrite lookup_insert_ne; [done|]. congruence.
    + intros h vt g' Hin Hvt.
      destruct (proj1 (Hsnoc h vt g') (conj Hin Hvt)) as [[??]|(-> & -> & ->)].
      * destruct (decide (g' = g)) as [->|Hne]; [by rewrite lookup_insert_eq|].
        rewrite lookup_insert_ne by done. by eapply Hvols.
      * by rewrite lookup_insert_eq.
    + intros g' G'. destruct (decide (g' = g)) as [->|Hne].
      * intros _. exists v, volume_tag. apply Hsnoc. by right.
      * rewrite lookup_insert_ne by done. intros HG'.
        destruct (Hused _ _ HG') as (h & vt & ? & ?).
        exists h, vt. apply Hsnoc. by left.
Qed.

Lemma assigned_surface m VT E b v s b' :
  Swept m VT.*1 E b → Assigned m VT b →
  visit_surface tags0 v s b = (Return tt, b') →
  Assigned m VT b'.
Proof.
  intros HS [Hknown Honly Hvols Hused] Hrun.
  assert (∀ g' G', known_groups b !! g' = Some G'
                   → (G' < moab.next_handle (core b))%N) as Hlt
    by apply (swept_groups _ _ _ _ HS).
  destruct (known_surfaces b !! s) as [surface|] eqn:Hk.
  - rewrite (visit_surface_seen _ _ _ _ Hk) in Hrun.
    injection Hrun as <-. split; simpl; [| |done..].
    + intros g G HG. rewrite !seen_surface_tag_other by congruence.
      by apply Hknown.
    + intros G. rewrite seen_surface_tag_other by congruence. apply Honly.
  - rewrite (visit_surface_new _ _ _ Hk) in Hrun.
    injection Hrun as <-. split; simpl; [| |done..].
    + intros g G HG. pose proof (Hlt _ _ HG).
      rewrite !new_surface_tag_other by lia.
      destruct (Hknown _ _ HG) as (? & ? & ? & Hmem). split_and!; [done..|].
      intros h. rewrite <- Hmem. unfold new_surface_core, moab.members; simpl.
      by rewrite lookup_insert_ne by lia.
    + intros G Hcat.
      destruct (decide (G = moab.next_handle (core b))) as [->|Hne].
      * unfold new_surface_core, moab.tag_get_data in Hcat; simpl in Hcat.
        rewrite lookup_insert_ne, lookup_insert_eq in Hcat by congruence.
        congruence.
      * rewrite new_surface_tag_other in Hcat by done. by apply Honly.
Qed.

(** A build that returns leaves the sets of the groups of all volumes. *)
Lemma make_from_mesh_assigned mesh w m model w' :
  msh_files w !! _mesh_filename mesh = Some m →
  make_from_mesh mesh w = (Return model, w') →
  ∃ b VT, VT.*2 = volume_tags m ∧ NoDup VT.*1
          ∧ Built m model b VT.*1
          ∧ Assigned m VT b.
Proof.
  apply (make_from_mesh_carried m (λ VT _ b, Assigned m VT b)).
  - intros w0. apply assigned_start.
  - intros VT E b volume_tag g HS HA Hg. by eapply assigned_volume.
  - intros VT E b v s b' HS HA Hrun. by eapply assigned_surface.
Qed.

Lemma NoDup_fst_agree {A B} (l : list (A * B)) x y1 y2 :
  NoDup l.*1 → (x, y1) ∈ l → (x, y2) ∈ l → y1 = y2.
Proof.
  induction l as [|[x' y'] l IH]; [by intros _ ?%elem_of_nil|].
  rewrite fmap_cons, NoDup_cons. cbn [fst]. intros [Hx Hnd] H1 H2.
  assert (∀ y, (x', y) ∈ l → False) as Hnot.
  { intros y Hy. apply Hx, list_elem_of_fmap. by exists (x', y). }
  apply elem_of_cons in H1 as [[= <- <-]|H1], H2 as [[= <-]|H2];
    try done; try (exfalso; by eapply Hnot); by apply IH.
Qed.

(** The tags and set contents of the model, for what existed before the
    file set. *)
Lemma built_members m model b V h :
  Built m model b V → (h < moab.next_handle (core b))%N →
  moab.members h (_core model) = moab.members h (core b).
Proof.
  intros HB Hh. rewrite (built_core _ _ _ _ HB).
  unfold sealed, moab.members; simpl. by rewrite lookup_insert_ne by lia.
Qed.

Lemma built_category m model b V h text :
  Built m model b V →
  moab.tag_get_data moab.CATEGORY h (_core model) = Some (moab.TOpaque text) →
  (h < moab.next_handle (core b))%N.
Proof.
  intros HB. rewrite (built_core _ _ _ _ HB).
  unfold sealed, moab.tag_get_data; simpl.
  rewrite lookup_insert_ne by congruence.
  apply (swept_tagged _ _ _ _ (built_swept _ _ _ _ HB) moab.CATEGORY).
Qed.

(** X5: in the model a build returns, every Volume entity is a member of
    exactly one entity of category "Group": the one whose [global_id] is the
    tag of the volume's physical group, named as the mesh names that group.
    The members of a Group entity are the Volume entities of the mesh
    volumes in that physical group, and there is at least one. *)
Theorem volumes_are_grouped_by_material mesh w m model w' :
  msh_files w !! _mesh_filename mesh = Some m →
  make_from_mesh mesh w = (Return model, w') →
  (∀ i V volume_tag,
     volumes model !! i = Some V → volume_tags m !! i = Some volume_tag →
     ∃ g G,
       groups_of m volume_tag = [g]
       ∧ moab.tag_get_data moab.CATEGORY G (_core model)
         = Some (moab.TOpaque "Group")
       ∧ moab.tag_get_data moab.NAME G (_core model)
         = Some (moab.TOpaque (gmsh.get_physical_name 3 g m))
       ∧ moab.tag_get_data moab.GLOBAL_ID G (_core model) = Some (moab.TInt g)
       ∧ V ∈ moab.members G (_core model)
       ∧ ∀ G', moab.tag_get_data moab.CATEGORY G' (_core model)
               = Some (moab.TOpaque "Group") →
               V ∈ moab.members G' (_core model) → G' = G)
  ∧ (∀ G, moab.tag_get_data moab.CATEGORY G (_core model)
          = Some (moab.TOpaque "Group") →
       ∃ g, moab.tag_get_data moab.GLOBAL_ID G (_core model) = Some (moab.TInt g)
         ∧ moab.members G (_core model) ≠ ∅
         ∧ ∀ h, h ∈ moab.members G (_core model)
                ↔ ∃ i volume_tag, volumes model !! i = Some h
                                  ∧ volume_tags m !! i = Some volume_tag
                                  ∧ groups_of m volume_tag = [g]).
Proof.
  intros Hf Hrun.
  destruct (make_from_mesh_returns _ _ _ _ _ Hf Hrun) as (Hwg & _).
  destruct (make_from_mesh_assigned _ _ _ _ _ Hf Hrun)
    as (b & VT & Htags & Hnd & HB & [Hknown Honly Hvols Hused]).
  pose proof (built_swept _ _ _ _ HB) as HS.
  pose proof (built_volumes _ _ _ _ HB) as HV.
  assert (∀ g G, known_groups b !! g = Some G
                 → (G < moab.next_handle (core b))%N) as Hlt
    by apply (swept_groups _ _ _ _ HS).
  assert (∀ h vt, (h, vt) ∈ VT
            ↔ ∃ i, volumes model !! i = Some h ∧ volume_tags m !! i = Some vt)
    as Hpos.
  { intros h vt. by rewrite elem_of_positions, HV, Htags. }
  split.
  - intros i V volume_tag Hi Hvt.
    assert ((V, volume_tag) ∈ VT) as Hin by (apply Hpos; by exists i).
    assert (∃ g, groups_of m volume_tag = [g]) as (g & Hg).
    { apply list_elem_of_lookup_2 in Hvt.
      apply (proj1 (Forall_forall _ _) Hwg) in Hvt.
      destruct (groups_of m volume_tag) as [|g [|??]]; try done. by exists g. }
    destruct (Hvols _ _ _ Hin Hg) as (G & HG).
    destruct (Hknown _ _ HG) as (Hcat & Hname & Hgid & Hmem).
    exists g, G. rewrite !(built_tag _ _ _ _ _ _ HB) by by eapply Hlt.
    rewrite (built_members _ _ _ _ _ HB) by by eapply Hlt.
    split_and!; [done..| |].
    + apply Hmem. by exists volume_tag.
    + intros G' Hcat' Hin'.
      pose proof (built_category _ _ _ _ _ _ HB Hcat') as HltG'.
      rewrite (built_tag _ _ _ _ _ _ HB) in Hcat' by done.
      rewrite (built_members _ _ _ _ _ HB) in Hin' by done.
      destruct (Honly _ Hcat') as (g' & HG').
      destruct (Hknown _ _ HG') as (_ & _ & _ & Hmem').
      apply Hmem' in Hin' as (vt' & Hin' & Hg').
      assert (vt' = volume_tag) as -> by by eapply NoDup_fst_agree.
      assert (g' = g) as -> by congruence. congruence.
  - intros G Hcat.
    pose proof (built_category _ _ _ _ _ _ HB Hcat) as HltG.
    rewrite (built_tag _ _ _ _ _ _ HB) in Hcat by done.
    destruct (Honly _ Hcat) as (g & HG).
    destruct (Hknown _ _ HG) as (_ & _ & Hgid & Hmem).
    exists g. rewrite (built_tag _ _ _ _ _ _ HB) by done.
    rewrite (built_members _ _ _ _ _ HB) by done. split_and!; [done| |].
    + destruct (Hused _ _ HG) as (h & vt & Hin & Hg).
      assert (h ∈ moab.members G (core b)) as Hh by (apply Hmem; by exists vt).
      intros Hempty. rewrite Hempty in Hh. by apply elem_of_empty in Hh.
    + intros h. rewrite Hmem. split.
      * intros (vt & (i & ? & ?)%Hpos & ?). by exists i, vt.
      * intros (i & vt & ? & ? & ?). exists vt. split; [|done].
        apply Hpos. by exists i.
Qed.

Lemma volumes_are_grouped_by_material_two_cells :
  (∀ i V volume_tag,
     volumes (built_from "two_cells.msh") !! i = Some V →
     volume_tags two_cells !! i = Some volume_tag →
     ∃ g G,
       groups_of two_cells volume_tag = [g]
       ∧ moab.tag_get_data moab.CATEGORY G (_core (built_from "two_cells.msh"))
         = Some (moab.TOpaque "Group")
       ∧ moab.tag_get_data moab.NAME G (_core (built_from "two_cells.msh"))
         = Some (moab.TOpaque (gmsh.get_physical_name 3 g two_cells))
       ∧ moab.tag_get_data moab.GLOBAL_ID G (_core (built_from "two_cells.msh"))
         = Some (moab.TInt g)
       ∧ V ∈ moab.members G (_core (built_from "two_cells.msh"))
       ∧ ∀ G', moab.tag_get_data moab.CATEGORY G'
                 (_core (built_from "two_cells.msh"))
               = Some (moab.TOpaque "Group") →
               V ∈ moab.members G' (_core (built_from "two_cells.msh")) →
               G' = G)
  ∧ (∀ G, moab.tag_get_data moab.CATEGORY G (_core (built_from "two_cells.msh"))
          = Some (moab.TOpaque "Group") →
       ∃ g, moab.tag_get_data moab.GLOBAL_ID G (_core (built_from "two_cells.msh"))
            = Some (moab.TInt g)
         ∧ moab.members G (_core (built_from "two_cells.msh")) ≠ ∅
         ∧ ∀ h, h ∈ moab.members G (_core (built_from "two_cells.msh"))
                ↔ ∃ i volume_tag,
                    volumes (built_from "two_cells.msh") !! i = Some h
                    ∧ volume_tags two_cells !! i = Some volume_tag
                    ∧ groups_of two_cells volume_tag = [g]).
Proof.
  apply (volumes_are_grouped_by_material (mesh_of "two_cells.msh") disk
           two_cells _ (make_from_mesh (mesh_of "two_cells.msh") disk).2).
  - vm_compute. reflexivity.
  - vm_compute. reflexivity.
Defined.

(** ** The tags of each kind of entity *)

Lemma is_kind_other c c' h k :
  (∀ t, moab.tag_get_data t h c' = moab.tag_get_data t h c) →
  is_kind c h k → is_kind c' h k.
Proof. intros Heq Hk t. by rewrite Heq. Qed.

Lemma swept_fresh m V E b h t :
  Swept m V E b → (moab.next_handle (core b) ≤ h)%N →
  moab.tag_get_data t h (core b) = None.
Proof.
  intros HS Hh. destruct (moab.tag_get_data t h (core b)) as [v|] eqn:Ht; [|done].
  apply (swept_tagged _ _ _ _ HS) in Ht. lia.
Qed.

Lemma new_volume_kind i c :
  (∀ t, moab.tag_get_data t (moab.next_handle c) c = None) →
  is_kind (new_volume_core i c) (moab.next_handle c) (VolumeSet (Z.of_nat i)).
Proof.
  intros Hnone t. specialize (Hnone t).
  unfold new_volume_core, moab.tag_get_data in *; simpl.
  destruct t; simpl;
    rewrite ?lookup_insert_eq, ?lookup_insert_ne by congruence; try done;
    rewrite ?lookup_insert_eq, ?lookup_insert_ne by congruence; try done;
    rewrite ?lookup_insert_eq, ?lookup_insert_ne by congruence; done.
Qed.

Lemma new_group_kind g name c :
  (∀ t, moab.tag_get_data t (moab.next_handle c) c = None) →
  is_kind (new_group_core g name c) (moab.next_handle c) (GroupSet g name).
Proof.
  intros Hnone t. specialize (Hnone t).
  unfold new_group_core, moab.tag_get_data in *; simpl.
  destruct t; simpl;
    rewrite ?lookup_insert_eq, ?lookup_insert_ne by congruence; try done;
    rewrite ?lookup_insert_eq, ?lookup_insert_ne by congruence; try done;
    rewrite ?lookup_insert_eq, ?lookup_insert_ne by congruence; done.
Qed.

Lemma new_surface_kind v s stl c :
  (∀ t, moab.tag_get_data t (moab.next_handle c) c = None) →
  is_kind (new_surface_core v s stl c) (moab.next_handle c) (SurfaceSet s v 0).
Proof.
  intros Hnone t. specialize (Hnone t).
  unfold new_surface_core, moab.tag_get_data in *; simpl.
  destruct t; simpl;
    rewrite ?lookup_insert_eq, ?lookup_insert_ne by congruence; try done;
    rewrite ?lookup_insert_eq, ?lookup_insert_ne by congruence; try done;
    rewrite ?lookup_insert_eq, ?lookup_insert_ne by congruence; try done;
    rewrite ?lookup_insert_eq, ?lookup_insert_ne by congruence; done.
Qed.

Lemma new_surface_entities v s stl c :
  moab.entities (new_surface_core v s stl c)
  = (moab.entities c ++ [(moab.MBENTITYSET, moab.next_handle c)])
    ++ ((λ h, (moab.MBTRI, h))
          <$> ((λ k, (N.succ (moab.next_handle c) + N.of_nat k)%N)
                 <$> seq 0 (moab.stl_facets stl))).
Proof. done. Qed.

Lemma schema_start w m :
  Schema {| world := entered w m; core := moab.new; known_surfaces := ∅;
            known_groups := ∅ |}.
Proof.
  split; simpl.
  - intros h. exists Untagged. split; [done|]. intros t.
    unfold moab.tag_get_data; simpl. rewrite lookup_empty. by destruct t.
  - intros t h v. unfold moab.tag_get_data; simpl. by rewrite lookup_empty.
  - by intros h ?%elem_of_nil.
Qed.

Lemma schema_volume m V E b i g name :
  Swept m V E b → Schema b →
  let v := moab.next_handle (core b) in
  let cg := grouped g name v (new_volume_core i (core b)) (known_groups b) in
  Schema {| world := world b; core := cg.1;
            known_surfaces := known_surfaces b; known_groups := cg.2 |}.
Proof.
  intros HS [Hkind Hsets Htri] v cg.
  assert (∀ t, moab.tag_get_data t v (core b) = None) as Hv
    by (intros t; apply (swept_fresh _ _ _ _ _ _ HS); unfold v; lia).
  assert (∀ t, moab.tag_get_data t (N.succ v) (core b) = None) as Hsv
    by (intros t; apply (swept_fresh _ _ _ _ _ _ HS); unfold v; lia).
  assert (∀ h, (moab.MBTRI, h) ∈ moab.entities (core b) → h ≠ v ∧ h ≠ N.succ v)
    as Hold.
  { intros h Hh%(swept_entities _ _ _ _ HS). simpl in Hh. unfold v. lia. }
  unfold cg, grouped. destruct (known_groups b !! g) as [G|] eqn:HG; simpl.
  - split; simpl.
    + intros h. destruct (decide (h = v)) as [->|Hne].
      * exists (VolumeSet (Z.of_nat i)). split; [done|].
        intros t. rewrite tag_get_add_entity. by apply new_volume_kind.
      * destruct (Hkind h) as (k & Hk & Hh). exists k. split; [done|].
        apply (is_kind_other (core b)); [|done].
        intros t. rewrite tag_get_add_entity. by apply new_volume_tag_other.
    + intros t h x. rewrite tag_get_add_entity.
      destruct (decide (h = v)) as [->|Hne].
      * intros _. apply elem_of_app. right. by apply list_elem_of_singleton.
      * rewrite new_volume_tag_other by done. intros Hx%Hsets.
        apply elem_of_app. by left.
    + intros h [Hh|[=]%list_elem_of_singleton]%elem_of_app.
      apply (is_kind_other (core b)); [|by apply Htri].
      intros t. rewrite tag_get_add_entity.
      apply new_volume_tag_other. by apply Hold.
  - split; simpl.
    + intros h. destruct (decide (h = N.succ v)) as [->|Hne1].
      * exists (GroupSet g name). split; [done|].
        intros t. rewrite tag_get_add_entity.
        apply (new_group_kind g name (new_volume_core i (core b))).
        intros t'. rewrite new_volume_tag_other; [apply Hsv|].
        simpl. unfold v. lia.
      * destruct (decide (h = v)) as [->|Hne].
        -- exists (VolumeSet (Z.of_nat i)). split; [done|].
           intros t. rewrite tag_get_add_entity, new_group_tag_other by done.
           by apply new_volume_kind.
        -- destruct (Hkind h) as (k & Hk & Hh). exists k. split; [done|].
           apply (is_kind_other (core b)); [|done].
           intros t. rewrite tag_get_add_entity, new_group_tag_other by done.
           by apply new_volume_tag_other.
    + intros t h x. rewrite tag_get_add_entity.
      destruct (decide (h = N.succ v)) as [->|Hne1].
      { intros _. apply elem_of_app. right. by apply list_elem_of_singleton. }
      rewrite new_group_tag_other by done.
      destruct (decide (h = v)) as [->|Hne].
      * intros _. apply elem_of_app. left. apply elem_of_app. right.
        by apply list_elem_of_singleton.
      * rewrite new_volume_tag_other by done. intros Hx%Hsets.
        apply elem_of_app. left. apply elem_of_app. by left.
    + intros h [[Hh|[=]%list_elem_of_singleton]%elem_of_app
                |[=]%list_elem_of_singleton]%elem_of_app.
      apply (is_kind_other (core b)); [|by apply Htri].
      intros t. rewrite tag_get_add_entity, new_group_tag_other by by apply Hold.
      apply new_volume_tag_other. by apply Hold.
Qed.

Lemma schema_surface m V E b v s b' :
  Swept m V E b → Schema b →
  visit_surface tags0 v s b = (Return tt, b') →
  Schema b'.
Proof.
  intros HS [Hkind Hsets Htri] Hrun.
  destruct (known_surfaces b !! s) as [surface|] eqn:Hk.
  - rewrite (visit_surface_seen _ _ _ _ Hk) in Hrun. injection Hrun as <-.
    destruct (swept_known _ _ _ _ HS _ _ Hk) as (_ & _ & _ & Hsense & _).
    destruct (Hkind (handle surface)) as (k0 & _ & Hk0).
    assert (∃ s0 f r, k0 = SurfaceSet s0 f r) as (s0 & f & r & ->).
    { specialize (Hk0 moab.GEOM_SENSE_2). rewrite Hsense in Hk0.
      destruct k0; try done. by eexists _, _, _. }
    split; simpl.
    + intros h. destruct (decide (h = handle surface)) as [->|Hne].
      * exists (SurfaceSet s0 (forward_volume surface) v). split; [done|].
        intros t. destruct (decide (t = moab.GEOM_SENSE_2)) as [->|Ht].
        -- unfold seen_surface_core, moab.tag_get_data; simpl.
           by rewrite lookup_insert_eq.
        -- rewrite seen_surface_tag_other by congruence. rewrite Hk0.
           by destruct t.
      * destruct (Hkind h) as (k & Hk' & Hh). exists k. split; [done|].
        apply (is_kind_other (core b)); [|done].
        intros t. apply seen_surface_tag_other. congruence.
    + intros t h x Hx.
      destruct (decide ((t, h) = (moab.GEOM_SENSE_2, handle surface)))
        as [[= -> ->]|Hne].
      * by apply (Hsets _ _ _ Hsense).
      * rewrite seen_surface_tag_other in Hx by done. by apply (Hsets _ _ _ Hx).
    + intros h Hh. apply (is_kind_other (core b)); [|by apply Htri].
      intros t. apply seen_surface_tag_other. intros [= -> ->].
      specialize (Htri _ Hh moab.GEOM_SENSE_2). rewrite Hsense in Htri. done.
  - rewrite (visit_surface_new _ _ _ Hk) in Hrun. injection Hrun as <-.
    set (h0 := moab.next_handle (core b)).
    assert (∀ h t, (h0 ≤ h)%N → moab.tag_get_data t h (core b) = None) as Hfresh
      by (intros h t; apply (swept_fresh _ _ _ _ _ _ HS)).
    split; cbn [core].
    + intros h. destruct (decide (h = h0)) as [->|Hne].
      * exists (SurfaceSet s v 0). split; [done|].
        apply new_surface_kind. intros t. by apply Hfresh.
      * destruct (Hkind h) as (k & Hk' & Hh). exists k. split; [done|].
        apply (is_kind_other (core b)); [|done].
        intros t. by apply new_surface_tag_other.
    + intros t h x Hx. rewrite new_surface_entities.
      destruct (decide (h = h0)) as [->|Hne].
      * apply elem_of_app. left. apply elem_of_app. right.
        by apply list_elem_of_singleton.
      * rewrite new_surface_tag_other in Hx by done.
        apply elem_of_app. left. apply elem_of_app. left. by eapply Hsets.
    + intros h. rewrite new_surface_entities.
      intros [[Hh|[=]%list_elem_of_singleton]%elem_of_app|Hh]%elem_of_app.
      * apply (is_kind_other (core b)); [|by apply Htri].
        intros t. apply new_surface_tag_other.
        apply (swept_entities _ _ _ _ HS) in Hh. simpl in Hh. lia.
      * apply list_elem_of_fmap in Hh as (h' & [= ->] & Hh').
        apply list_elem_of_fmap in Hh' as (k & -> & _).
        intros t. rewrite new_surface_tag_other by (fold h0; lia).
        rewrite Hfresh by lia. by destruct t.
Qed.

Lemma make_from_mesh_schema mesh w m model w' :
  msh_files w !! _mesh_filename mesh = Some m →
  make_from_mesh mesh w = (Return model, w') →
  ∃ b VT, VT.*2 = volume_tags m ∧ NoDup VT.*1
          ∧ Built m model b VT.*1
          ∧ Schema b.
Proof.
  apply (make_from_mesh_carried m (λ _ _ b, Schema b)).
  - intros w0. apply schema_start.
  - intros VT E b volume_tag g HS HA Hg. by eapply schema_volume.
  - intros VT E b v s b' HS HA Hrun. by eapply schema_surface.
Qed.

Lemma sets_of_dimension_intro ty t v c h :
  (ty, h) ∈ moab.entities c → moab.tag_get_data t h c = Some (moab.TInt v) →
  h ∈ moab.get_entities_by_type_and_tag ty t v c.
Proof.
  intros Hin Ht. unfold moab.get_entities_by_type_and_tag.
  apply list_elem_of_fmap. exists (ty, h). split; [done|].
  by apply list_elem_of_filter.
Qed.

(** X6: the model a build returns follows one schema.  Every handle is of
    one of five kinds, by the tags written on it: a Volume (category
    "Volume", dimension 3, a global id), a Surface (category "Surface",
    dimension 2, a global id, a sense pair), a Group (category "Group", a
    name, a global id), the file set (the faceting tolerance only) or an
    entity without any tag.  [volumes] lists exactly the handles of the
    first kind and [surfaces] those of the second; there is one file set,
    the entity created last; the triangles carry no tag. *)
Theorem model_follows_the_schema mesh w model w' :
  make_from_mesh mesh w = (Return model, w') →
  (∀ h, ∃ k, is_kind (_core model) h k)
  ∧ (∀ h, h ∈ volumes model ↔ ∃ i, is_kind (_core model) h (VolumeSet i))
  ∧ (∀ h, h ∈ surfaces model
          ↔ ∃ s f r, is_kind (_core model) h (SurfaceSet s f r))
  ∧ (∀ h, is_kind (_core model) h FileSet
          ↔ last (moab.entities (_core model)) = Some (moab.MBENTITYSET, h))
  ∧ (∀ h, (moab.MBTRI, h) ∈ moab.entities (_core model) →
          is_kind (_core model) h Untagged).
Proof.
  intros Hrun. destruct (make_from_mesh_file _ _ _ _ Hrun) as (m & Hf).
  destruct (make_from_mesh_schema _ _ _ _ _ Hf Hrun)
    as (b & VT & _ & _ & HB & [Hkind Hsets Htri]).
  pose proof (built_swept _ _ _ _ HB) as HS.
  pose proof (built_core _ _ _ _ HB) as Hcore.
  set (file_set := moab.next_handle (core b)).
  assert (is_kind (_core model) file_set FileSet) as Hfile.
  { intros t. rewrite Hcore.
    destruct (decide (t = moab.FACETING_TOL)) as [->|Ht].
    - unfold sealed, moab.tag_get_data; simpl. by rewrite lookup_insert_eq.
    - transitivity (moab.tag_get_data t file_set (core b)).
      + unfold sealed, moab.tag_get_data; simpl.
        by rewrite lookup_insert_ne by congruence.
      + rewrite (swept_fresh _ _ _ _ _ t HS) by (unfold file_set; lia).
        by destruct t. }
  assert (∀ h k, h ≠ file_set →
            is_kind (_core model) h k ↔ is_kind (core b) h k) as Hsame.
  { intros h k Hne. unfold is_kind. rewrite Hcore.
    split; intros Hk t; specialize (Hk t);
      by rewrite sealed_tag_other in * by done. }
  assert (∀ h k, is_kind (core b) h k → k ≠ Untagged → h ≠ file_set) as Hbelow.
  { intros h k Hk Hne ->. apply Hne. destruct k; try done.
    - specialize (Hk moab.CATEGORY).
      by rewrite (swept_fresh _ _ _ _ _ _ HS) in Hk by (fold file_set; lia).
    - specialize (Hk moab.CATEGORY).
      by rewrite (swept_fresh _ _ _ _ _ _ HS) in Hk by (fold file_set; lia).
    - specialize (Hk moab.CATEGORY).
      by rewrite (swept_fresh _ _ _ _ _ _ HS) in Hk by (fold file_set; lia).
    - specialize (Hk moab.FACETING_TOL).
      by rewrite (swept_fresh _ _ _ _ _ _ HS) in Hk by (fold file_set; lia). }
  split_and!.
  - intros h. destruct (decide (h = file_set)) as [->|Hne]; [by exists FileSet|].
    destruct (Hkind h) as (k & _ & Hk). exists k. by apply Hsame.
  - intros h. unfold volumes, _get_entities_of_geom_dimension. rewrite Hcore.
    rewrite (sealed_sets_of_dimension _ _ _ _ _ HS). split.
    + intros [Hin Hdim]%sets_of_dimension_elem.
      destruct (Hkind h) as (k & _ & Hk). pose proof (Hk moab.GEOM_DIMENSION) as Hd.
      rewrite Hdim in Hd. destruct k as [|i0|???|??|]; try done. exists i0.
      rewrite <- Hcore. apply Hsame; [|done]. by eapply Hbelow.
    + intros (i & Hk). rewrite <- Hcore in Hk. assert (h ≠ file_set) as Hne.
      { intros ->. specialize (Hk moab.FACETING_TOL).
        by rewrite (Hfile moab.FACETING_TOL) in Hk. }
      apply Hsame in Hk; [|done].
      apply sets_of_dimension_intro; [|apply (Hk moab.GEOM_DIMENSION)].
      apply (Hsets moab.GEOM_DIMENSION _ _ (Hk moab.GEOM_DIMENSION)).
  - intros h. unfold surfaces, _get_entities_of_geom_dimension. rewrite Hcore.
    rewrite (sealed_sets_of_dimension _ _ _ _ _ HS). split.
    + intros [Hin Hdim]%sets_of_dimension_elem.
      destruct (Hkind h) as (k & _ & Hk). pose proof (Hk moab.GEOM_DIMENSION) as Hd.
      rewrite Hdim in Hd. destruct k as [|?|s0 f0 r0|??|]; try done.
      exists s0, f0, r0.
      rewrite <- Hcore. apply Hsame; [|done]. by eapply Hbelow.
    + intros (s & f & r & Hk). rewrite <- Hcore in Hk.
      assert (h ≠ file_set) as Hne.
      { intros ->. specialize (Hk moab.FACETING_TOL).
        by rewrite (Hfile moab.FACETING_TOL) in Hk. }
      apply Hsame in Hk; [|done].
      apply sets_of_dimension_intro; [|apply (Hk moab.GEOM_DIMENSION)].
      apply (Hsets moab.GEOM_DIMENSION _ _ (Hk moab.GEOM_DIMENSION)).
  - intros h. rewrite Hcore at 2. unfold sealed; simpl. rewrite last_snoc. split.
    + intros Hk. destruct (decide (h = file_set)) as [Heq|Hne]; [by rewrite Heq|].
      apply Hsame in Hk; [|done]. specialize (Hk moab.FACETING_TOL).
      by rewrite (swept_no_tol _ _ _ _ HS) in Hk.
    + intros [= <-]. apply Hfile.
  - intros h. rewrite Hcore at 1. unfold sealed at 1; simpl.
    intros [Hh|[=]%list_elem_of_singleton]%elem_of_app.
    apply Hsame; [|by apply Htri].
    apply (swept_entities _ _ _ _ HS) in Hh. simpl in Hh. unfold file_set. lia.
Qed.

Lemma model_follows_the_schema_two_cells :
  (∀ h, ∃ k, is_kind (_core (built_from "two_cells.msh")) h k)
  ∧ (∀ h, h ∈ volumes (built_from "two_cells.msh")
          ↔ ∃ i, is_kind (_core (built_from "two_cells.msh")) h (VolumeSet i))
  ∧ (∀ h, h ∈ surfaces (built_from "two_cells.msh")
          ↔ ∃ s f r, is_kind (_core (built_from "two_cells.msh")) h
                       (SurfaceSet s f r))
  ∧ (∀ h, is_kind (_core (built_from "two_cells.msh")) h FileSet
          ↔ last (moab.entities (_core (built_from "two_cells.msh")))
            = Some (moab.MBENTITYSET, h))
  ∧ (∀ h, (moab.MBTRI, h) ∈ moab.entities (_core (built_from "two_cells.msh")) →
          is_kind (_core (built_from "two_cells.msh")) h Untagged).
Proof.
  apply (model_follows_the_schema (mesh_of "two_cells.msh") disk _
           (make_from_mesh (mesh_of "two_cells.msh") disk).2).
  vm_compute. reflexivity.
Defined.

(** ** Meshing a geometry *)

Lemma materials_in_order_snoc l x :
  materials_in_order (l ++ [x])
  = if decide (x ∈ materials_in_order l) then materials_in_order l
    else materials_in_order l ++ [x].
Proof. unfold materials_in_order. by rewrite foldl_app. Qed.

Lemma materials_in_order_elem_of l x : x ∈ materials_in_order l ↔ x ∈ l.
Proof.
  revert x. induction l as [|y l IH] using rev_ind; intros x; [done|].
  rewrite materials_in_order_snoc, elem_of_app, list_elem_of_singleton.
  case_decide as Hy.
  - rewrite IH. split; [by left|]. intros [?| ->]; [done|]. by apply IH.
  - by rewrite elem_of_app, list_elem_of_singleton, IH.
Qed.

Lemma materials_in_order_NoDup l : NoDup (materials_in_order l).
Proof.
  induction l as [|y l IH] using rev_ind; [apply NoDup_nil_2|].
  rewrite materials_in_order_snoc. case_decide as Hy; [done|].
  apply NoDup_app. split_and!; [done| |apply NoDup_singleton].
  by intros x Hx ->%list_elem_of_singleton.
Qed.

Lemma tags_of_material_snoc material l m t :
  tags_of_material material (l ++ [(m, t)])
  = tags_of_material material l ++ (if decide (m = material) then [t] else []).
Proof.
  unfold tags_of_material. rewrite filter_app, fmap_app, filter_cons, filter_nil.
  simpl. by case_decide.
Qed.

Lemma tags_of_material_nil material l :
  material ∉ l.*1 → tags_of_material material l = [].
Proof.
  intros Hm. unfold tags_of_material. rewrite filter_none; [done|].
  apply Forall_forall. intros [m t] Hin Heq. simpl in Heq. subst m.
  apply Hm, list_elem_of_fmap. by exists (material, t).
Qed.

(** The dict, in closed form: one entry per material, in the order of
    first appearance, holding the tags of its solids in their order. *)
Lemma recorded_groups l :
  recorded l []
  = (λ material, (material, tags_of_material material l))
      <$> materials_in_order l.*1.
Proof.
  induction l as [|[m t] l IH] using rev_ind; [done|].
  unfold recorded in *. rewrite foldl_app; simpl. rewrite IH.
  rewrite fmap_app; simpl. rewrite materials_in_order_snoc.
  unfold record_solid.
  assert (((λ material, (material, tags_of_material material l))
             <$> materials_in_order l.*1).*1 = materials_in_order l.*1) as Hkeys.
  { rewrite <- list_fmap_compose. apply list_fmap_id. }
  rewrite Hkeys. destruct (decide (m ∈ materials_in_order l.*1)) as [Hin|Hin].
  - rewrite <- list_fmap_compose. apply list_fmap_ext. intros i material _; simpl.
    rewrite tags_of_material_snoc.
    destruct (decide (material = m)) as [->|Hne].
    + by rewrite decide_True.
    + rewrite decide_False by done. by rewrite app_nil_r.
  - rewrite fmap_app; simpl. f_equal.
    + apply Forall_fmap_ext_1, Forall_forall. intros material Hm.
      rewrite tags_of_material_snoc, decide_False; [by rewrite app_nil_r|].
      by intros ->.
    + rewrite tags_of_material_snoc, decide_True by done.
      rewrite tags_of_material_nil; [done|].
      by rewrite <- materials_in_order_elem_of.
Qed.

(** The first loop, run: it changes nothing on disk; when it returns, every
    solid wraps a shape and the dict holds the tag of each; when it raises,
    it is for a solid that wraps nothing, for an import that made nothing,
    or for a first entity that is not a volume. *)
Lemma import_solids_run occ pairs :
  ∀ material_solid_map w r w',
    import_solids occ pairs material_solid_map w = (r, w') →
    msh_files w' = msh_files w ∧ images w' = images w
    ∧ logger_level w' = logger_level w
    ∧ match r with
      | Return map' =>
          Forall (λ sm, wrapped sm.1 ≠ None) pairs
          ∧ length (solid_tags occ pairs.*1 (session w)) = length pairs
          ∧ map' = recorded (zip pairs.*2 (solid_tags occ pairs.*1 (session w)))
                     material_solid_map
      | Raise e => e ∈ import_errors
      end.
Proof.
  induction pairs as [|[s m] pairs IH]; intros map w r w'; simpl.
  - intros [= <- <-]. by split_and!.
  - destruct (wrapped s) as [address|] eqn:Hs.
    + unfold bind.
      destruct (occ address (session w)) as [dts g] eqn:Hocc.
      destruct dts as [|[dim solid_tag] dts].
      * intros [= <- <-]. split_and!; [done..|]. right; left.
      * case_decide as Hdim.
        -- intros [= <- <-]. split_and!; [done..|]. right; right; left.
        -- intros Hrun. apply IH in Hrun as (Hf & Hi & Hl & Hr).
           split_and!; [done..|]. destruct r as [map'|e]; [|done].
           destruct Hr as (Hall & Hlen & ->). simpl in Hlen.
           split_and!.
           ++ constructor; [simpl; congruence|done].
           ++ simpl. f_equal. exact Hlen.
           ++ done.
    + intros [= <- <-]. split_and!; [done..|]. left.
Qed.



(** X7: when the first loop of [mesh_geometry] returns, every solid wraps a
    shape, and [material_solid_map] has one entry per material, in the order
    in which the materials first appear; the entry of a material lists the
    solid tags of the solids of that material, in their order, and is not
    empty.  The solid tag of a solid is the tag of the first entity the OCC
    import made of it. *)
Theorem solids_are_noted_by_material occ pairs w material_solid_map w' :
  import_solids occ pairs [] w = (Return material_solid_map, w') →
  let tags := solid_tags occ pairs.*1 (session w) in
  Forall (λ sm, wrapped sm.1 ≠ None) pairs
  ∧ length tags = length pairs
  ∧ material_solid_map
    = (λ material, (material, tags_of_material material (zip pairs.*2 tags)))
        <$> materials_in_order pairs.*2
  ∧ NoDup material_solid_map.*1
  ∧ Forall (λ kv, kv.2 ≠ []) material_solid_map.
Proof.
  intros Hrun tags.
  destruct (import_solids_run _ _ _ _ _ _ Hrun) as (_ & _ & _ & Hall & Hlen & ->).
  fold tags in Hlen |- *.
  assert ((zip pairs.*2 tags).*1 = pairs.*2) as Hfst.
  { apply fst_zip. rewrite Hlen, length_fmap. lia. }
  assert (recorded (zip pairs.*2 tags) []
          = (λ material, (material, tags_of_material material (zip pairs.*2 tags)))
              <$> materials_in_order pairs.*2) as Heq
    by by rewrite recorded_groups, Hfst.
  rewrite Heq. split_and!; [done..| |].
  - assert (((λ material,
               (material, tags_of_material material (zip pairs.*2 tags)))
              <$> materials_in_order pairs.*2).*1
            = materials_in_order pairs.*2) as ->
      by (rewrite <- list_fmap_compose; apply list_fmap_id).
    apply materials_in_order_NoDup.
  - apply Forall_fmap, Forall_forall. intros material Hin; simpl.
    apply (proj1 (materials_in_order_elem_of _ _)) in Hin.
    rewrite <- Hfst in Hin.
    apply list_elem_of_fmap in Hin as ([m t] & -> & Hin).
    unfold tags_of_material. intros Hnil.
    assert (t ∈ (filter (λ mt : string * Z, mt.1 = m) (zip pairs.*2 tags)).*2)
      as Ht.
    { apply list_elem_of_fmap. exists (m, t). split; [done|].
      by apply list_elem_of_filter. }
    simpl in Hnil. rewrite Hnil in Ht. by apply elem_of_nil in Ht.
Qed.

Lemma solids_are_noted_by_material_three :
  let pairs := [(ball, "iron"); ({| wrapped := Some 2%N |}, "water");
                ({| wrapped := Some 3%N |}, "iron")] in
  let tags := solid_tags one_volume pairs.*1 (session disk) in
  let material_solid_map := [("iron", [1; 3]%Z); ("water", [2%Z])] in
  Forall (λ sm, wrapped sm.1 ≠ None) pairs
  ∧ length tags = length pairs
  ∧ material_solid_map
    = (λ material, (material, tags_of_material material (zip pairs.*2 tags)))
        <$> materials_in_order pairs.*2
  ∧ NoDup material_solid_map.*1
  ∧ Forall (λ kv, kv.2 ≠ []) material_solid_map.
Proof.
  apply (solids_are_noted_by_material one_volume
           [(ball, "iron"); ({| wrapped := Some 2%N |}, "water");
            ({| wrapped := Some 3%N |}, "iron")] disk
           [("iron", [1; 3]%Z); ("water", [2%Z])] disk).
  vm_compute. reflexivity.
Defined.



(** ** Imprinting, rendering, and a mesh without volumes *)

Lemma omap_wrapped_length (l : list Solid) :
  length (omap wrapped l) ≤ length l
  ∧ (length (omap wrapped l) = length l ↔ Forall (λ s, wrapped s ≠ None) l).
Proof.
  induction l as [|s l [IHle IHiff]]; simpl.
  - split; [lia|]. split; [by constructor|done].
  - destruct (wrapped s) as [a|] eqn:Hs; simpl;
      change (list_omap Solid N wrapped l) with (omap wrapped l).
    + split; [lia|]. rewrite Forall_cons, <- IHiff, Hs. split.
      * intros [= ?]. by split.
      * intros [_ ?]. by f_equal.
    + split; [lia|]. rewrite Forall_cons, Hs. split; [lia|]. by intros [? _].
Qed.

(** X9: [imprint] gives the builder only the solids that wrap a shape and
    checks the solids it gets back against all the material names.  So with
    a builder that gives back one solid per argument, a geometry (with as
    many names as solids) is imprinted exactly when every solid wraps a
    shape, the names being kept as they are; with one solid that wraps
    nothing, the call ends in the [ValueError] of the constructor. *)
Theorem imprint_needs_wrapped_solids (make_connected : list N → Shape)
    (self : Geometry) :
  length (material_names self) = length (solids self) →
  (∀ arguments, length (solids_of (make_connected arguments)) = length arguments) →
  (Forall (λ s, wrapped s ≠ None) (solids self) →
     imprint make_connected self
     = Return {| solids := solids_of (make_connected (omap wrapped (solids self)));
                 material_names := material_names self |})
  ∧ (¬ Forall (λ s, wrapped s ≠ None) (solids self) →
       imprint make_connected self = Raise (ValueError MaterialNamesSolids))
  ∧ (∀ geometry, imprint make_connected self = Return geometry →
       material_names geometry = material_names self
       ∧ length (solids geometry) = length (solids self)
       ∧ Forall (λ s, wrapped s ≠ None) (solids self)).
Proof.
  intros Hself Hkernel.
  destruct (omap_wrapped_length (solids self)) as [_ Hiff].
  assert (Forall (λ s, wrapped s ≠ None) (solids self) →
          imprint make_connected self
          = Return {| solids := solids_of (make_connected (omap wrapped (solids self)));
                      material_names := material_names self |}) as Hyes.
  { intros Hall. unfold imprint, Geometry_init; simpl.
    rewrite decide_False; [done|].
    rewrite Hkernel, Hself. intros Hne. apply Hne. symmetry. by apply Hiff. }
  assert (¬ Forall (λ s, wrapped s ≠ None) (solids self) →
          imprint make_connected self = Raise (ValueError MaterialNamesSolids))
    as Hno.
  { intros Hsome. unfold imprint, Geometry_init; simpl.
    rewrite decide_True; [done|].
    rewrite Hkernel, Hself. intros Heq. apply Hsome, Hiff. by symmetry. }
  split_and!; [done..|].
  intros geometry Hrun.
  destruct (decide (Forall (λ s, wrapped s ≠ None) (solids self))) as [Hall|Hsome].
  - rewrite (Hyes Hall) in Hrun. injection Hrun as <-. simpl.
    split_and!; [done| |done]. rewrite Hkernel. by apply Hiff.
  - by rewrite (Hno Hsome) in Hrun.
Qed.

Lemma imprint_needs_wrapped_solids_ball :
  let self := {| solids := [ball; {| wrapped := None |}];
                 material_names := ["iron"; "water"] |} in
  (Forall (λ s, wrapped s ≠ None) (solids self) →
     imprint one_solid_each self
     = Return {| solids := solids_of (one_solid_each (omap wrapped (solids self)));
                 material_names := material_names self |})
  ∧ (¬ Forall (λ s, wrapped s ≠ None) (solids self) →
       imprint one_solid_each self = Raise (ValueError MaterialNamesSolids))
  ∧ (∀ geometry, imprint one_solid_each self = Return geometry →
       material_names geometry = material_names self
       ∧ length (solids geometry) = length (solids self)
       ∧ Forall (λ s, wrapped s ≠ None) (solids self)).
Proof.
  intros self. apply (imprint_needs_wrapped_solids one_solid_each self).
  - reflexivity.
  - intros arguments. unfold one_solid_each; simpl. apply length_fmap.
Defined.




(** X11: a mesh file without 3D entities (a mesh of surfaces only, say) is
    built without an error, whatever its physical groups: the model has no
    volume, no surface and no group, only the file set, tagged with the
    faceting tolerance and holding nothing. *)
Theorem mesh_without_volumes_builds_empty mesh w m :
  msh_files w !! _mesh_filename mesh = Some m →
  volume_tags m = [] →
  ∃ model w',
    make_from_mesh mesh w = (Return model, w')
    ∧ volumes model = [] ∧ surfaces model = []
    ∧ moab.entities (_core model) = [(moab.MBENTITYSET, 1%N)]
    ∧ moab.tag_get_data moab.FACETING_TOL 1%N (_core model)
      = Some (moab.TDouble faceting_tol_value)
    ∧ (∀ t, t ≠ moab.FACETING_TOL → moab.tag_get_data t 1%N (_core model) = None)
    ∧ moab.members 1%N (_core model) = ∅.
Proof.
  intros Hf Hv.
  rewrite (make_from_mesh_opened _ _ _ Hf), build_body_run; simpl.
  rewrite Hv; simpl. eexists _, _. split; [done|]. simpl.
  split_and!; try done.
  intros t Ht. unfold sealed, moab.tag_get_data; simpl.
  by rewrite lookup_insert_ne by congruence.
Qed.

Lemma mesh_without_volumes_builds_empty_shell :
  ∃ model w',
    make_from_mesh (mesh_of "shell.msh") shell_only = (Return model, w')
    ∧ volumes model = [] ∧ surfaces model = []
    ∧ moab.entities (_core model) = [(moab.MBENTITYSET, 1%N)]
    ∧ moab.tag_get_data moab.FACETING_TOL 1%N (_core model)
      = Some (moab.TDouble faceting_tol_value)
    ∧ (∀ t, t ≠ moab.FACETING_TOL → moab.tag_get_data t 1%N (_core model) = None)
    ∧ moab.members 1%N (_core model) = ∅.
Proof.
  apply (mesh_without_volumes_builds_empty (mesh_of "shell.msh") shell_only
           (gmsh.set_groups [group 1 [1%Z] "mat:iron"] gmsh.empty_model)).
  - vm_compute. reflexivity.
  - reflexivity.
Defined.
